(** * Delivery guarantees: sender and receiver state machines

    A shallow embedding of [01-guarantees/solution/guarantees.py]: the four
    sender/receiver pairs (at most once, at least once, exactly once,
    exactly once and ordered) as functions from a process state and one
    event to the next state and the operations performed on the context. *)

From Stdlib Require Import ZArith QArith Lia.
From stdpp Require Import base numbers option list strings gmap sets.

Local Open Scope string_scope.
Local Open Scope list_scope.
Local Open Scope Z_scope.

(** ** The harness: messages and context operations *)

(** A message of the harness is a type tag and a dictionary of fields.  The
    protocol fixes the fields ([seq], an integer, and [text], a string) and
    payloads are well formed, so the dictionary is a pair of total fields; a
    handler reads a field only of a message type that carries it. *)
Record Message := mkMessage {
  msg_type : string;
  msg_seq : Z;
  msg_text : string
}.

(** [Message("DATA", {"seq": seq, "text": text})] *)
Definition DATA (seq : Z) (text : string) : Message := mkMessage "DATA" seq text.
(** [Message("ACK", {"seq": seq})] *)
Definition ACK (seq : Z) : Message := mkMessage "ACK" seq "".
(** [Message("MESSAGE", {"text": text})] *)
Definition MESSAGE (text : string) : Message := mkMessage "MESSAGE" 0 text.

(** The operations of [Context], in the order a reaction performs them. *)
Inductive effect :=
| send (m : Message) (dest : string)
| send_local (m : Message)
| set_timer_once (name : string) (timeout : Q)
| cancel_timer (name : string).

(** The three events the harness delivers to a process. *)
Inductive event :=
| LocalMessage (m : Message)
| WireMessage (m : Message) (sender : string)
| TimerFired (name : string).

(** ** Windowed reliable sender

    [AtLeastOnceSender], [ExactlyOnceSender] and [ExactlyOnceOrderedSender]
    have the same methods, line for line; their constructors differ in the
    value of [_window] only (10, 10 and 4). *)
Module Sender.

Record t := mk {
  id : string;
  receiver : string;
  next_seq : Z;
  base : Z;
  unacked : gmap Z string;
  pending : list string;
  pending_idx : nat;
  window : Z;
  timeout : Q;
  timer : string;
  timer_active : bool
}.

Definition init (proc_id receiver_id : string) (w : Z) : t :=
  mk proc_id receiver_id 1 1 ∅ [] 0 w (13 # 2) "rtx" false.

Definition AtLeastOnceSender (proc_id receiver_id : string) : t :=
  init proc_id receiver_id 10.
Definition ExactlyOnceSender (proc_id receiver_id : string) : t :=
  init proc_id receiver_id 10.
Definition ExactlyOnceOrderedSender (proc_id receiver_id : string) : t :=
  init proc_id receiver_id 4.

Definition set_timer_active (b : bool) (s : t) : t :=
  mk (id s) (receiver s) (next_seq s) (base s) (unacked s) (pending s)
     (pending_idx s) (window s) (timeout s) (timer s) b.

Definition set_base (b : Z) (s : t) : t :=
  mk (id s) (receiver s) (next_seq s) b (unacked s) (pending s)
     (pending_idx s) (window s) (timeout s) (timer s) (timer_active s).

Definition set_unacked (u : gmap Z string) (s : t) : t :=
  mk (id s) (receiver s) (next_seq s) (base s) u (pending s)
     (pending_idx s) (window s) (timeout s) (timer s) (timer_active s).

Definition set_pending (p : list string) (i : nat) (s : t) : t :=
  mk (id s) (receiver s) (next_seq s) (base s) (unacked s) p
     i (window s) (timeout s) (timer s) (timer_active s).

(** [not self._unacked] *)
Definition unacked_empty (s : t) : bool := bool_decide (unacked s = ∅).

Definition _has_window_space (s : t) : bool :=
  bool_decide (next_seq s < base s + window s).

Definition _arm_timer (s : t) : t * list effect :=
  (set_timer_active true s, [set_timer_once (timer s) (timeout s)]).

Definition _disarm_timer (s : t) : t * list effect :=
  if timer_active s
  then (set_timer_active false s, [cancel_timer (timer s)])
  else (s, []).

Definition _restart_timer (s : t) : t * list effect :=
  let '(s1, o1) := _disarm_timer s in
  let '(s2, o2) := _arm_timer s1 in
  (s2, o1 ++ o2).

Definition _send_data (seq : Z) (text : string) (s : t) : list effect :=
  [send (DATA seq text) (receiver s)].

(** The block shared by [on_local_message] and [_try_send_pending]: take the
    next sequence number, record the text as unacknowledged, transmit it, and
    restart the timer when nothing was outstanding before. *)
Definition assign_and_send (text : string) (s : t) : t * list effect :=
  let seq := next_seq s in
  let was_empty := unacked_empty s in
  let s1 :=
    mk (id s) (receiver s) (next_seq s + 1) (base s) (<[seq := text]> (unacked s))
       (pending s) (pending_idx s) (window s) (timeout s) (timer s)
       (timer_active s) in
  let o1 := _send_data seq text s1 in
  if was_empty
  then let '(s2, o2) := _restart_timer s1 in (s2, o1 ++ o2)
  else (s1, o1).

(** The [while] loop of [_try_send_pending].  The cursor moves one step
    towards the end of [pending] in every iteration, so
    [length pending - pending_idx] iterations are enough. *)
Fixpoint drain_pending (fuel : nat) (s : t) : t * list effect :=
  match fuel with
  | O => (s, [])
  | S fuel' =>
      match pending s !! pending_idx s with
      | Some text =>
          if _has_window_space s then
            let s1 := set_pending (pending s) (S (pending_idx s)) s in
            let '(s2, o2) := assign_and_send text s1 in
            let '(s3, o3) := drain_pending fuel' s2 in
            (s3, o2 ++ o3)
          else (s, [])
      | None => (s, [])
      end
  end.

Definition _try_send_pending (s : t) : t * list effect :=
  let '(s1, o1) := drain_pending (length (pending s) - pending_idx s) s in
  if bool_decide (0 < pending_idx s1)%nat
     && bool_decide (length (pending s1) ≤ pending_idx s1 * 2)%nat
  then (set_pending (drop (pending_idx s1) (pending s1)) 0 s1, o1)
  else (s1, o1).

Definition on_local_message (msg : Message) (s : t) : t * list effect :=
  if bool_decide (msg_type msg ≠ "MESSAGE") then (s, [])
  else
    let text := msg_text msg in
    if _has_window_space s then assign_and_send text s
    else (set_pending (pending s ++ [text]) (pending_idx s) s, []).

(** The [while] loop of [on_message]: [base] moves up to [next_seq] at most,
    so [next_seq - base] iterations are enough. *)
Fixpoint slide_base (fuel : nat) (s : t) (base_changed : bool) : t * bool :=
  match fuel with
  | O => (s, base_changed)
  | S fuel' =>
      if bool_decide (base s < next_seq s) && bool_decide (unacked s !! base s = None)
      then slide_base fuel' (set_base (base s + 1) s) true
      else (s, base_changed)
  end.

Definition on_message (msg : Message) (sender : string) (s : t) : t * list effect :=
  if bool_decide (msg_type msg ≠ "ACK") then (s, [])
  else
    let seq := msg_seq msg in
    let s1 := set_unacked (delete seq (unacked s)) s in
    let '(s2, base_changed) :=
      slide_base (Z.to_nat (next_seq s1 - base s1)) s1 false in
    let '(s3, o3) :=
      if unacked_empty s2 then _disarm_timer s2
      else if base_changed then _restart_timer s2
      else (s2, []) in
    let '(s4, o4) := _try_send_pending s3 in
    (s4, o3 ++ o4).

Definition on_timer (timer_name : string) (s : t) : t * list effect :=
  if bool_decide (timer_name ≠ timer s) then (s, [])
  else
    let s1 := set_timer_active false s in
    if unacked_empty s1 then (s1, [])
    else
      let seq := base s1 in
      let o1 := match unacked s1 !! seq with
                | Some text => _send_data seq text s1
                | None => []
                end in
      let '(s2, o2) := _arm_timer s1 in
      (s2, o1 ++ o2).

Definition step (s : t) (e : event) : t * list effect :=
  match e with
  | LocalMessage m => on_local_message m s
  | WireMessage m sender => on_message m sender s
  | TimerFired name => on_timer name s
  end.

(** A run: the events are handled one at a time, the operations on the
    context accumulate in order. *)
Fixpoint run (s : t) (evs : list event) : t * list effect :=
  match evs with
  | [] => (s, [])
  | e :: evs' =>
      let '(s1, o1) := step s e in
      let '(s2, o2) := run s1 evs' in
      (s2, o1 ++ o2)
  end.

End Sender.

(** ** At most once *)
Module AtMostOnceSender.

Record t := mk {
  id : string;
  receiver : string;
  next_seq : Z
}.

Definition init (proc_id receiver_id : string) : t := mk proc_id receiver_id 1.

Definition on_local_message (msg : Message) (s : t) : t * list effect :=
  if bool_decide (msg_type msg ≠ "MESSAGE") then (s, [])
  else
    let seq := next_seq s in
    (mk (id s) (receiver s) (next_seq s + 1),
     [send (DATA seq (msg_text msg)) (receiver s)]).

Definition on_message (msg : Message) (sender : string) (s : t) : t * list effect :=
  (s, []).

Definition on_timer (timer_name : string) (s : t) : t * list effect :=
  (s, []).

End AtMostOnceSender.

(** [min(d.keys())] of a dictionary with integer keys; [None] when the
    dictionary is empty (Python raises ValueError). *)
Definition min_key (m : gmap Z string) : option Z :=
  match elements (dom m) with
  | [] => None
  | k :: ks => Some (foldr Z.min k ks)
  end.

Module AtMostOnceReceiver.

Record t := mk {
  id : string;
  next_seq : Z;
  buffer : gmap Z string;
  max_buffer : Z
}.

Definition init (proc_id : string) : t := mk proc_id 1 ∅ 12.

Definition on_local_message (msg : Message) (r : t) : t * list effect :=
  (r, []).

Definition _deliver (text : string) : list effect :=
  [send_local (MESSAGE text)].

(** The [while] loop of [_flush]: every iteration pops one key of the
    buffer, so [size buffer] iterations are enough. *)
Fixpoint flush_loop (fuel : nat) (r : t) : t * list effect :=
  match fuel with
  | O => (r, [])
  | S fuel' =>
      match buffer r !! next_seq r with
      | Some text =>
          let r1 := mk (id r) (next_seq r + 1) (delete (next_seq r) (buffer r))
                       (max_buffer r) in
          let '(r2, o2) := flush_loop fuel' r1 in
          (r2, _deliver text ++ o2)
      | None => (r, [])
      end
  end.

Definition _flush (r : t) : t * list effect :=
  flush_loop (size (buffer r)) r.

Definition _skip_ahead (r : t) : t * list effect :=
  if bool_decide (buffer r = ∅) then (r, [])
  else
    match min_key (buffer r) with
    | None => (r, [])
    | Some new_next =>
        if bool_decide (new_next ≤ next_seq r) then (r, [])
        else _flush (mk (id r) new_next (buffer r) (max_buffer r))
    end.

(** The [if seq == next_seq ... else ...] statement of [on_message]. *)
Definition accept (seq : Z) (text : string) (r : t) : t * list effect :=
  if bool_decide (seq = next_seq r) then
    let '(r1, o1) :=
      _flush (mk (id r) (next_seq r + 1) (buffer r) (max_buffer r)) in
    (r1, _deliver text ++ o1)
  else
    match buffer r !! seq with
    | None => (mk (id r) (next_seq r) (<[seq := text]> (buffer r)) (max_buffer r), [])
    | Some _ => (r, [])
    end.

(** [len(self._buffer) > self._max_buffer] *)
Definition over_cap (r : t) : bool :=
  bool_decide (max_buffer r < Z.of_nat (size (buffer r))).

Definition on_message (msg : Message) (sender : string) (r : t) : t * list effect :=
  if bool_decide (msg_type msg ≠ "DATA") then (r, [])
  else
    let seq := msg_seq msg in
    let text := msg_text msg in
    if bool_decide (seq < next_seq r) then (r, [])
    else
      let '(r1, o1) := accept seq text r in
      if over_cap r1
      then let '(r2, o2) := _skip_ahead r1 in (r2, o1 ++ o2)
      else (r1, o1).

Definition on_timer (timer_name : string) (r : t) : t * list effect :=
  (r, []).

Definition step (r : t) (e : event) : t * list effect :=
  match e with
  | LocalMessage m => on_local_message m r
  | WireMessage m sender => on_message m sender r
  | TimerFired name => on_timer name r
  end.

Fixpoint run (r : t) (evs : list event) : t * list effect :=
  match evs with
  | [] => (r, [])
  | e :: evs' =>
      let '(r1, o1) := step r e in
      let '(r2, o2) := run r1 evs' in
      (r2, o1 ++ o2)
  end.

End AtMostOnceReceiver.

(** The texts handed to the application by a list of context operations. *)
Definition delivered_texts (out : list effect) : list string :=
  flat_map (λ e, match e with send_local m => [msg_text m] | _ => [] end) out.

(** The sequence numbers acknowledged by a list of context operations. *)
Definition acks_sent (out : list effect) : list Z :=
  flat_map (λ e, match e with
                 | send m _ => if bool_decide (msg_type m = "ACK") then [msg_seq m] else []
                 | _ => []
                 end) out.

(** ** At least once: the receiver *)
Module AtLeastOnceReceiver.

Record t := mk { id : string }.

Definition init (proc_id : string) : t := mk proc_id.

Definition on_local_message (msg : Message) (r : t) : t * list effect :=
  (r, []).

Definition on_message (msg : Message) (sender : string) (r : t) : t * list effect :=
  if bool_decide (msg_type msg ≠ "DATA") then (r, [])
  else (r, [send_local (MESSAGE (msg_text msg)); send (ACK (msg_seq msg)) sender]).

Definition on_timer (timer_name : string) (r : t) : t * list effect :=
  (r, []).

End AtLeastOnceReceiver.

(** ** Exactly once and ordered: the receiver *)
Module ExactlyOnceOrderedReceiver.

Record t := mk {
  id : string;
  next_seq : Z;
  buffer : gmap Z string
}.

Definition init (proc_id : string) : t := mk proc_id 1 ∅.

Definition on_local_message (msg : Message) (r : t) : t * list effect :=
  (r, []).

Definition _deliver (text : string) : list effect :=
  [send_local (MESSAGE text)].

(** The [while] loop of [_flush]: every iteration pops one key of the
    buffer, so [size buffer] iterations are enough. *)
Fixpoint flush_loop (fuel : nat) (r : t) : t * list effect :=
  match fuel with
  | O => (r, [])
  | S fuel' =>
      match buffer r !! next_seq r with
      | Some text =>
          let r1 := mk (id r) (next_seq r + 1) (delete (next_seq r) (buffer r)) in
          let '(r2, o2) := flush_loop fuel' r1 in
          (r2, _deliver text ++ o2)
      | None => (r, [])
      end
  end.

Definition _flush (r : t) : t * list effect :=
  flush_loop (size (buffer r)) r.

Definition on_message (msg : Message) (sender : string) (r : t) : t * list effect :=
  if bool_decide (msg_type msg ≠ "DATA") then (r, [])
  else
    let seq := msg_seq msg in
    let text := msg_text msg in
    if bool_decide (seq < next_seq r) then (r, [send (ACK seq) sender])
    else
      let '(r1, o1) :=
        if bool_decide (seq = next_seq r) then
          let '(r1, o1) := _flush (mk (id r) (next_seq r + 1) (buffer r)) in
          (r1, _deliver text ++ o1)
        else
          match buffer r !! seq with
          | None => (mk (id r) (next_seq r) (<[seq := text]> (buffer r)), [])
          | Some _ => (r, [])
          end in
      (r1, o1 ++ [send (ACK seq) sender]).

Definition on_timer (timer_name : string) (r : t) : t * list effect :=
  (r, []).

Definition step (r : t) (e : event) : t * list effect :=
  match e with
  | LocalMessage m => on_local_message m r
  | WireMessage m sender => on_message m sender r
  | TimerFired name => on_timer name r
  end.

Fixpoint run (r : t) (evs : list event) : t * list effect :=
  match evs with
  | [] => (r, [])
  | e :: evs' =>
      let '(r1, o1) := step r e in
      let '(r2, o2) := run r1 evs' in
      (r2, o1 ++ o2)
  end.

End ExactlyOnceOrderedReceiver.

(** ** Exactly once: the receiver with the bitmap of seen sequence numbers *)

(** Indexing a bytearray of length [len] with [i]: a negative index counts
    from the end, an index out of range raises IndexError ([None]). *)
Definition py_index (len : nat) (i : Z) : option nat :=
  if bool_decide (0 ≤ i < Z.of_nat len) then Some (Z.to_nat i)
  else if bool_decide (- Z.of_nat len ≤ i < 0) then Some (Z.to_nat (Z.of_nat len + i))
  else None.

(** [b[i]] *)
Definition getitem (b : list Z) (i : Z) : option Z :=
  n ← py_index (length b) i; b !! n.

(** [b[i] = v] *)
Definition setitem (b : list Z) (i : Z) (v : Z) : option (list Z) :=
  n ← py_index (length b) i; Some (<[n := v]> b).

(** [a % b]: the sign of the result is the sign of [b], as for [Z.modulo];
    ZeroDivisionError ([None]) when [b] is 0. *)
Definition py_mod (a b : Z) : option Z :=
  if bool_decide (b = 0) then None else Some (a `mod` b).

(** [bytearray(n)]: [n] zero bytes; ValueError ([None]) when [n] is negative. *)
Definition bytearray (n : Z) : option (list Z) :=
  if bool_decide (n < 0) then None else Some (replicate (Z.to_nat n) 0).

Module ExactlyOnceReceiver.

Record t := mk {
  id : string;
  next_seq : Z;
  win : Z;
  head : Z;
  seen : list Z
}.

Definition init (proc_id : string) : t :=
  mk proc_id 1 32 0 (replicate 32 0).

Definition on_local_message (msg : Message) (r : t) : option (t * list effect) :=
  Some (r, []).

(** In this module [None] stands for a Python exception (IndexError,
    ZeroDivisionError, ValueError) or for a loop that does not end. *)
Definition _advance (r : t) : option t :=
  head' ← py_mod (head r + 1) (win r);
  let next_seq' := next_seq r + 1 in
  tail ← py_mod (head' + win r - 1) (win r);
  seen' ← setitem (seen r) tail 0;
  Some (mk (id r) next_seq' (win r) head' seen').

(** The doubling loop of [_ensure_window]. *)
Fixpoint grow_loop (fuel : nat) (offset new_win : Z) : option Z :=
  if bool_decide (new_win ≤ offset) && bool_decide (new_win < 1024) then
    match fuel with
    | O => None
    | S fuel' => grow_loop fuel' offset (new_win * 2)
    end
  else Some new_win.

(** The [for d in range(...)] loop of [_ensure_window], over the values
    of [d] still to come. *)
Fixpoint rehome (ds : list Z) (r : t) (new_seen : list Z) : option (list Z) :=
  match ds with
  | [] => Some new_seen
  | d :: ds' =>
      i ← py_mod (head r + d) (win r);
      v ← getitem (seen r) i;
      new_seen' ← setitem new_seen d v;
      rehome ds' r new_seen'
  end.

(** A positive capacity below 1024 exceeds 1024 after less than 1024
    doublings; a capacity of 0 or less is doubled for ever. *)
Definition _ensure_window (offset : Z) (r : t) : option t :=
  if bool_decide (offset < win r) then Some r
  else
    new_win ← grow_loop (Z.to_nat (1024 - win r)) offset (win r);
    let new_win := if bool_decide (new_win ≤ offset) then offset + 1 else new_win in
    new_seen ← bytearray new_win;
    new_seen ← rehome (seqZ 0 (Z.min (win r) new_win)) r new_seen;
    Some (mk (id r) (next_seq r) new_win 0 new_seen).

(** The [while self._seen[self._head] == 1] loop of [on_message]. *)
Fixpoint skip_seen (fuel : nat) (r : t) : option t :=
  v ← getitem (seen r) (head r);
  if bool_decide (v = 1) then
    match fuel with
    | O => None
    | S fuel' =>
        seen' ← setitem (seen r) (head r) 0;
        r' ← _advance (mk (id r) (next_seq r) (win r) (head r) seen');
        skip_seen fuel' r'
    end
  else Some r.

Definition on_message (msg : Message) (sender : string) (r : t)
  : option (t * list effect) :=
  if bool_decide (msg_type msg ≠ "DATA") then Some (r, [])
  else
    let seq := msg_seq msg in
    let text := msg_text msg in
    if bool_decide (seq < next_seq r) then Some (r, [send (ACK seq) sender])
    else
      let offset := seq - next_seq r in
      r1 ← _ensure_window offset r;
      if bool_decide (offset = 0) then
        r2 ← _advance r1;
        r3 ← skip_seen (length (seen r2)) r2;
        Some (r3, [send_local (MESSAGE text); send (ACK seq) sender])
      else
        idx ← py_mod (head r1 + offset) (win r1);
        v ← getitem (seen r1) idx;
        if bool_decide (v = 0) then
          seen' ← setitem (seen r1) idx 1;
          Some (mk (id r1) (next_seq r1) (win r1) (head r1) seen',
                [send_local (MESSAGE text); send (ACK seq) sender])
        else Some (r1, [send (ACK seq) sender]).

Definition on_timer (timer_name : string) (r : t) : option (t * list effect) :=
  Some (r, []).

Definition step (r : t) (e : event) : option (t * list effect) :=
  match e with
  | LocalMessage m => on_local_message m r
  | WireMessage m sender => on_message m sender r
  | TimerFired name => on_timer name r
  end.

(** A run keeps, for every event, the operations of its reaction. *)
Fixpoint run (r : t) (evs : list event) : option (t * list (event * list effect)) :=
  match evs with
  | [] => Some (r, [])
  | e :: evs' =>
      '(r1, o1) ← step r e;
      '(r2, os) ← run r1 evs';
      Some (r2, (e, o1) :: os)
  end.



End ExactlyOnceReceiver.

(** ** Invariants of the windowed sender *)
Module SenderInv.
Import Sender.

(** What holds of a sender of window [w] between two reactions. *)
Record inv (w : Z) (s : t) : Prop := mk_inv {
  inv_window : window s = w;
  inv_timer_name : timer s = "rtx";
  inv_timeout : timeout s = 13 # 2;
  inv_base_le : base s ≤ next_seq s;
  inv_space : next_seq s ≤ base s + window s;
  inv_keys : ∀ k, is_Some (unacked s !! k) → base s ≤ k < next_seq s;
  inv_base : base s = next_seq s ∨ is_Some (unacked s !! base s);
  inv_timer : timer_active s = negb (unacked_empty s)
}.





End SenderInv.

(** The three windowed senders of the repository. *)
Definition windowed_senders (proc_id receiver_id : string) : list Sender.t :=
  [Sender.AtLeastOnceSender proc_id receiver_id;
   Sender.ExactlyOnceSender proc_id receiver_id;
   Sender.ExactlyOnceOrderedSender proc_id receiver_id].

(** The number of times a list of context operations arms a timer. *)
Definition timer_armings (out : list effect) : nat :=
  length (flat_map (λ e, match e with set_timer_once name _ => [name] | _ => [] end) out).

(** The arrivals [DATA{s, txt s}], from [sender], of the sequence numbers
    [seqs] in that order: one sender labels each sequence number with one
    text, the channel decides which copies arrive and in which order. *)
Definition arrivals (sender : string) (txt : Z → string) (seqs : list Z) : list event :=
  (λ s, WireMessage (DATA s (txt s)) sender) <$> seqs.

(** ** Invariant of the at-most-once receiver *)
Module AtMostOnceInv.
Import AtMostOnceReceiver.

Record inv (r : t) : Prop := mk_inv {
  inv_cap : max_buffer r = 12;
  inv_size : (size (buffer r) ≤ 12)%nat;
  inv_ahead : ∀ k, is_Some (buffer r !! k) → next_seq r < k
}.

(** The texts [_flush] hands over when it moves [next_seq] from [n] to
    [n']: the buffered texts of [n], [n + 1], ..., [n' - 1] in that order. *)
Definition flushed (b : gmap Z string) (n n' : Z) : list effect :=
  (λ k, send_local (MESSAGE (default "" (b !! k)))) <$> seqZ n (n' - n).

End AtMostOnceInv.

(** The buffer that holds the text [txt s] under every [s] of [seqs]. *)
Definition buffered (txt : Z → string) (b : gmap Z string) (seqs : list Z)
  : gmap Z string :=
  foldl (λ b s, <[s := txt s]> b) b seqs.

(** ** Invariant of the exactly-once-ordered receiver *)
Module OrderedInv.
Import ExactlyOnceOrderedReceiver.

(** The buffer holds the text of every sequence number that has arrived
    and that [next_seq] has not passed. *)
Definition holds (txt : Z → string) (arrived : list Z) (r : t) : Prop :=
  ∀ k, buffer r !! k =
       if bool_decide (k ∈ arrived ∧ next_seq r ≤ k) then Some (txt k) else None.

(** Between two reactions: everything below [next_seq] has arrived, from 1
    on, and [next_seq] itself has not. *)
Record inv (txt : Z → string) (arrived : list Z) (r : t) : Prop := mk_inv {
  inv_pos : 1 ≤ next_seq r;
  inv_holds : holds txt arrived r;
  inv_next : next_seq r ∉ arrived;
  inv_below : ∀ k, 1 ≤ k < next_seq r → k ∈ arrived
}.

End OrderedInv.

(** ** Invariant of the exactly-once receiver *)
Module DedupInv.
Import ExactlyOnceReceiver.

(** The bitmap has [win] bytes, [win] is positive and [head] is an index. *)
Definition wf (r : t) : Prop :=
  0 < win r ∧ 0 ≤ head r < win r ∧ Z.of_nat (length (seen r)) = win r.

(** The byte for the sequence number [next_seq + d]: [seen[(head + d) % win]]. *)
Definition bit (r : t) (d : Z) : option Z :=
  getitem (seen r) ((head r + d) `mod` win r).

(** The bitmap against the sequence numbers [D] delivered so far: all of
    1, ..., [next_seq - 1] are delivered, the byte at offset [d] is 1 when
    [next_seq + d] is delivered and 0 when it is not, and nothing is
    delivered from [next_seq + win] on. *)
Record inv (D : list Z) (r : t) : Prop := mk_inv {
  inv_wf : wf r;
  inv_pos : 1 ≤ next_seq r;
  inv_below : ∀ s, s < next_seq r → (s ∈ D ↔ 1 ≤ s);
  inv_bits : ∀ d, 0 ≤ d < win r →
             bit r d = Some (if bool_decide (next_seq r + d ∈ D) then 1 else 0);
  inv_beyond : ∀ s, next_seq r + win r ≤ s → s ∉ D
}.

End DedupInv.

(** ** Runs of the components without a run above *)

(** The texts the application hands to a sender: the MESSAGE inputs of a
    history, in order. *)
Definition inputs (evs : list event) : list string :=
  flat_map (λ e, match e with
                 | LocalMessage m =>
                     if bool_decide (msg_type m = "MESSAGE") then [msg_text m] else []
                 | _ => []
                 end) evs.

Module AtMostOnceSenderRun.
Import AtMostOnceSender.

Definition step (s : t) (e : event) : t * list effect :=
  match e with
  | LocalMessage m => on_local_message m s
  | WireMessage m sender => on_message m sender s
  | TimerFired name => on_timer name s
  end.

Fixpoint run (s : t) (evs : list event) : t * list effect :=
  match evs with
  | [] => (s, [])
  | e :: evs' =>
      let '(s1, o1) := step s e in
      let '(s2, o2) := run s1 evs' in
      (s2, o1 ++ o2)
  end.

End AtMostOnceSenderRun.

Module AtLeastOnceReceiverRun.
Import AtLeastOnceReceiver.

Definition step (r : t) (e : event) : t * list effect :=
  match e with
  | LocalMessage m => on_local_message m r
  | WireMessage m sender => on_message m sender r
  | TimerFired name => on_timer name r
  end.

Fixpoint run (r : t) (evs : list event) : t * list effect :=
  match evs with
  | [] => (r, [])
  | e :: evs' =>
      let '(r1, o1) := step r e in
      let '(r2, o2) := run r1 evs' in
      (r2, o1 ++ o2)
  end.

End AtLeastOnceReceiverRun.

(** A list of sequence numbers in strictly increasing order. *)
Definition increasing (l : list Z) : Prop :=
  ∀ (i j : nat) (x y : Z), l !! i = Some x → l !! j = Some y → (i < j)%nat → x < y.

(** The read cursor of [pending] is at the start or in the first half. *)
Definition cursor_low (s : Sender.t) : Prop :=
  Sender.pending_idx s = 0%nat ∨
  (2 * Sender.pending_idx s < length (Sender.pending s))%nat.

(** Handing the texts of the sequence numbers [ds] to the application, in
    that order. *)
Definition deliveries (txt : Z → string) (ds : list Z) : list effect :=
  (λ k, send_local (MESSAGE (txt k))) <$> ds.

(** The buffer of the at-most-once receiver holds texts that arrived, each
    under its own sequence number. *)
Definition amo_holds (txt : Z → string) (arrived : list Z)
    (r : AtMostOnceReceiver.t) : Prop :=
  ∀ k t, AtMostOnceReceiver.buffer r !! k = Some t → t = txt k ∧ k ∈ arrived.

(** ** Inputs and transmissions of the windowed sender *)
Module SenderFifo.
Import Sender.

(** The inputs [T] against the state: the inputs numbered so far are the
    first [next_seq - 1], the ones after them wait in [pending] from the
    cursor on, and an outstanding number holds the input of its position. *)
Record fifo (T : list string) (s : t) : Prop := mk_fifo {
  fifo_pos : 1 ≤ next_seq s;
  fifo_idx : (pending_idx s ≤ length (pending s))%nat;
  fifo_len : (Z.to_nat (next_seq s - 1) ≤ length T)%nat;
  fifo_queue : drop (pending_idx s) (pending s) = drop (Z.to_nat (next_seq s - 1)) T;
  fifo_unacked : ∀ k text, unacked s !! k = Some text →
                 1 ≤ k ∧ T !! Z.to_nat (k - 1) = Some text
}.

(** No text waits while the window has room. *)
Definition eager (s : t) : Prop :=
  _has_window_space s = true → (length (pending s) ≤ pending_idx s)%nat.

(** Every message sent goes to [dest], is a DATA message, and carries the
    input whose position is its sequence number. *)
Definition carries_inputs (T : list string) (dest : string) (out : list effect) : Prop :=
  ∀ m d, send m d ∈ out →
    d = dest ∧ m = DATA (msg_seq m) (msg_text m) ∧
    1 ≤ msg_seq m ∧ T !! Z.to_nat (msg_seq m - 1) = Some (msg_text m).

(** Arming and cancelling a timer. *)
Definition is_timer_op (e : effect) : Prop :=
  match e with
  | set_timer_once _ _ | cancel_timer _ => True
  | _ => False
  end.

End SenderFifo.


(** The timer [name] of the harness through a list of operations, from the
    state [armed]: [None] when an armed timer is armed again or an idle one
    is cancelled, the final state otherwise. *)
Fixpoint timer_after (name : string) (armed : bool) (out : list effect) : option bool :=
  match out with
  | [] => Some armed
  | set_timer_once n _ :: out' =>
      if bool_decide (n = name) && negb armed then timer_after name true out' else None
  | cancel_timer n :: out' =>
      if bool_decide (n = name) && armed then timer_after name false out' else None
  | _ :: out' => timer_after name armed out'
  end.

(** The state of the timer when a reaction starts: an expiry of the
    sender's own timer leaves it idle. *)
Definition armed_before (s : Sender.t) (e : event) : bool :=
  match e with
  | TimerFired name =>
      if bool_decide (name = Sender.timer s) then false else Sender.timer_active s
  | _ => Sender.timer_active s
  end.


(** * Proofs *)

(** ** The windowed sender *)
Section SenderFacts.
Import Sender SenderInv.

Lemma assign_and_send_fields text s :
  let s' := (assign_and_send text s).1 in
  next_seq s' = next_seq s + 1 ∧ base s' = base s ∧
  unacked s' = <[next_seq s := text]> (unacked s) ∧
  pending s' = pending s ∧ pending_idx s' = pending_idx s ∧
  window s' = window s ∧ timer s' = timer s ∧ timeout s' = timeout s ∧
  id s' = id s ∧ receiver s' = receiver s ∧
  timer_active s' = (if unacked_empty s then true else timer_active s).
Proof.
  unfold assign_and_send, _restart_timer, _disarm_timer, _arm_timer.
  destruct (unacked_empty s), (timer_active s); simpl; repeat split; reflexivity.
Qed.

Lemma unacked_empty_insert k text s u :
  unacked s = <[k := text]> u → unacked_empty s = false.
Proof.
  intros H. unfold unacked_empty. apply bool_decide_eq_false. rewrite H.
  apply insert_non_empty.
Qed.

Lemma assign_and_send_inv w text s :
  inv w s → _has_window_space s = true → inv w (assign_and_send text s).1.
Proof.
  intros [Hw Hn Ht Hb Hs Hk Hbase Htm] Hspace.
  apply bool_decide_eq_true in Hspace.
  destruct (assign_and_send_fields text s)
    as (En & Eb & Eu & _ & _ & Ew & Etn & Eto & _ & _ & Eta).
  split; rewrite ?En, ?Eb, ?Eu, ?Ew, ?Etn, ?Eto; try done; try lia.
  - intros k [v Hv]. destruct (decide (k = next_seq s)) as [->|Hne]; [lia|].
    rewrite lookup_insert_ne in Hv by done.
    specialize (Hk k (ex_intro _ v Hv)). lia.
  - right. destruct Hbase as [->|[v Hv]].
    + rewrite lookup_insert_eq. eauto.
    + destruct (decide (next_seq s = base s)) as [->|Hne].
      * rewrite lookup_insert_eq. eauto.
      * rewrite lookup_insert_ne by done. eauto.
  - rewrite Eta, (unacked_empty_insert _ _ _ _ Eu). simpl.
    destruct (unacked_empty s); [done|]. by rewrite Htm.
Qed.

Lemma set_pending_inv w p i s : inv w s → inv w (set_pending p i s).
Proof. intros []. by split. Qed.

Lemma drain_pending_inv w fuel : ∀ s, inv w s → inv w (drain_pending fuel s).1.
Proof.
  induction fuel as [|fuel IH]; intros s Hs; simpl; [done|].
  destruct (pending s !! pending_idx s) as [text|]; [|done].
  destruct (_has_window_space _) eqn:Hspace; [|done].
  set (s1 := set_pending _ _ s).
  assert (H1 : inv w (assign_and_send text s1).1).
  { apply assign_and_send_inv; [by apply set_pending_inv|done]. }
  destruct (assign_and_send text s1) as [s2 o2]. simpl in H1.
  specialize (IH s2 H1). by destruct (drain_pending fuel s2).
Qed.

Lemma _try_send_pending_inv w s : inv w s → inv w (_try_send_pending s).1.
Proof.
  intros Hs. unfold _try_send_pending.
  pose proof (drain_pending_inv w (length (pending s) - pending_idx s) s Hs) as H.
  destruct (drain_pending _ s) as [s1 o1]. simpl in H.
  case_match; simpl; [by apply set_pending_inv|done].
Qed.

Lemma on_local_message_inv w msg s : inv w s → inv w (on_local_message msg s).1.
Proof.
  intros Hs. unfold on_local_message.
  case_bool_decide; [done|].
  destruct (_has_window_space s) eqn:Hspace.
  - by apply assign_and_send_inv.
  - by apply set_pending_inv.
Qed.

(** The loop that slides [base]: it leaves everything but [base] as it
    is, stops on the first sequence number still unacknowledged or on
    [next_seq], and reports whether [base] moved. *)
Lemma slide_base_spec fuel : ∀ s c,
  (Z.to_nat (next_seq s - base s) ≤ fuel)%nat →
  base s ≤ next_seq s →
  (∀ k, is_Some (unacked s !! k) → base s ≤ k) →
  ∃ b, (slide_base fuel s c).1 = set_base b s ∧
       base s ≤ b ≤ next_seq s ∧
       (∀ k, is_Some (unacked s !! k) → b ≤ k) ∧
       (b = next_seq s ∨ is_Some (unacked s !! b)) ∧
       (slide_base fuel s c).2 = (c || bool_decide (b ≠ base s)).
Proof.
  induction fuel as [|fuel IH]; intros s c Hfuel Hle Hkeys; simpl.
  - exists (base s). destruct s; simpl in *.
    rewrite bool_decide_eq_false_2 by (intros ?; done).
    rewrite orb_false_r. repeat split; try done; lia.
  - destruct (bool_decide (base s < next_seq s)) eqn:Hlt; simpl.
    + apply bool_decide_eq_true in Hlt.
      destruct (bool_decide (unacked s !! base s = None)) eqn:Hnone.
      * apply bool_decide_eq_true in Hnone.
        destruct (IH (set_base (base s + 1) s) true) as (b & E & Hb & Hk & Hstop & Ec);
          simpl; try lia.
        { intros k Hk. specialize (Hkeys k Hk).
          destruct (decide (k = base s)) as [->|]; [|lia].
          rewrite Hnone in Hk. by destruct Hk. }
        exists b. rewrite E, Ec. simpl in *.
        rewrite bool_decide_eq_true_2 by lia. rewrite orb_true_r.
        repeat split; try done; lia.
      * apply bool_decide_eq_false in Hnone.
        exists (base s). destruct s; simpl in *.
        rewrite bool_decide_eq_false_2 by (intros ?; done).
        rewrite orb_false_r. repeat split; try done; try lia.
        right. by apply not_eq_None_Some.
    + apply bool_decide_eq_false in Hlt.
      exists (base s). destruct s; simpl in *.
      rewrite bool_decide_eq_false_2 by (intros ?; done).
      rewrite orb_false_r. repeat split; try done; lia.
Qed.

(** The reaction to an ACK: the sequence number leaves [unacked], [base]
    slides, the timer follows, and the rest is [_try_send_pending]. *)
Lemma on_message_ack_shape w msg sender s :
  inv w s → msg_type msg = "ACK" →
  ∃ s3, (on_message msg sender s).1 = (_try_send_pending s3).1 ∧ inv w s3 ∧
        next_seq s3 = next_seq s ∧ base s ≤ base s3 ∧
        unacked s3 = delete (msg_seq msg) (unacked s).
Proof.
  intros Hs Hack. unfold on_message.
  rewrite bool_decide_eq_false_2 by (intros ?; done).
  set (s1 := set_unacked (delete (msg_seq msg) (unacked s)) s).
  destruct Hs as [Hw Hn Ht Hb Hsp Hk Hbase Htm].
  assert (Hk1 : ∀ k, is_Some (unacked s1 !! k) → base s ≤ k < next_seq s).
  { intros k [v Hv]. simpl in Hv. apply lookup_delete_Some in Hv as [_ Hv]. eauto. }
  destruct (slide_base_spec (Z.to_nat (next_seq s1 - base s1)) s1 false)
    as (b & E & Hbb & Hkb & Hstop & Ec); simpl; try done.
  { intros k Hk'. apply Hk1 in Hk'. lia. }
  destruct (slide_base _ s1 false) as [s2 c]. simpl in E, Ec. subst s2 c.
  change (base s1) with (base s) in *. change (next_seq s1) with (next_seq s) in *.
  set (s2 := set_base b s1).
  assert (H3 : let s3 := (if unacked_empty s2 then _disarm_timer s2
                      else if bool_decide (b ≠ base s) then _restart_timer s2
                      else (s2, [])).1 in
               inv w s3 ∧ next_seq s3 = next_seq s ∧ base s ≤ base s3 ∧
               unacked s3 = delete (msg_seq msg) (unacked s)).
  { assert (Hcore : ∀ s3, next_seq s3 = next_seq s → base s3 = b →
              unacked s3 = unacked s1 → window s3 = window s →
              timer s3 = timer s → timeout s3 = timeout s →
              timer_active s3 = negb (unacked_empty s2) →
              inv w s3 ∧ next_seq s3 = next_seq s ∧ base s ≤ base s3 ∧
              unacked s3 = delete (msg_seq msg) (unacked s)).
    { intros s3 E1 E2 E3 E4 E5 E6 E7.
      split; [|by rewrite E2; repeat split; try lia].
      split; rewrite ?E1, ?E2, ?E3, ?E4, ?E5, ?E6; try done; try lia.
      - intros k Hk'. split; [by apply Hkb|]. apply Hk1 in Hk'. lia.
      - rewrite E7. unfold unacked_empty. by rewrite E3. }
    destruct (unacked_empty s2) eqn:Hemp.
    - unfold _disarm_timer. destruct (timer_active s2) eqn:Hta; simpl.
      + by apply Hcore.
      + by apply Hcore.
    - case_bool_decide as Hch.
      + unfold _restart_timer, _disarm_timer, _arm_timer.
        destruct (timer_active s2); simpl; by apply Hcore.
      + simpl. apply Hcore; try done. simpl. rewrite Htm.
        unfold unacked_empty in *. simpl in Hemp.
        apply bool_decide_eq_false in Hemp.
        rewrite bool_decide_eq_false_2; [done|].
        intros Hu. apply Hemp. rewrite Hu. apply delete_empty. }
  destruct (if unacked_empty s2 then _ else _) as [s3 o3]. simpl in H3.
  exists s3. split; [|done]. by destruct (_try_send_pending s3).
Qed.

Lemma on_message_inv w msg sender s : inv w s → inv w (on_message msg sender s).1.
Proof.
  intros Hs. destruct (decide (msg_type msg = "ACK")) as [Hack|Hack].
  - destruct (on_message_ack_shape w msg sender s Hs Hack) as (s3 & -> & H3 & _).
    by apply _try_send_pending_inv.
  - unfold on_message. by rewrite bool_decide_eq_true_2.
Qed.

Lemma on_timer_inv w name s : inv w s → inv w (on_timer name s).1.
Proof.
  intros Hs. unfold on_timer.
  case_bool_decide; [done|].
  destruct Hs as [Hw Hn Ht Hb Hsp Hk Hbase Htm].
  change (unacked_empty (set_timer_active false s)) with (unacked_empty s).
  destruct (unacked_empty s) eqn:Hemp; simpl.
  - split; simpl; try done. unfold unacked_empty in *. simpl. by rewrite Hemp.
  - split; simpl; try done. unfold unacked_empty in *. simpl. by rewrite Hemp.
Qed.

Lemma step_inv w s e : inv w s → inv w (step s e).1.
Proof.
  destruct e; simpl; auto using on_local_message_inv, on_message_inv, on_timer_inv.
Qed.

Lemma run_inv w evs : ∀ s, inv w s → inv w (run s evs).1.
Proof.
  induction evs as [|e evs IH]; intros s Hs; simpl; [done|].
  pose proof (step_inv w s e Hs) as H1.
  destruct (step s e) as [s1 o1]. specialize (IH s1 H1).
  by destruct (run s1 evs).
Qed.

Lemma init_inv proc_id receiver_id w : 0 ≤ w → inv w (init proc_id receiver_id w).
Proof.
  intros Hw. split; simpl; try done; try lia.
  all: try (intros k [v Hv]; by rewrite lookup_empty in Hv); by left.
Qed.

(** *** The acknowledged sequence numbers *)








Lemma windowed_senders_inv proc_id receiver_id s0 :
  s0 ∈ windowed_senders proc_id receiver_id → ∃ w, 0 ≤ w ≤ 10 ∧ inv w s0.
Proof.
  unfold windowed_senders. rewrite !elem_of_cons, elem_of_nil.
  intros [->|[->|[->|[]]]]; [exists 10|exists 10|exists 4];
    (split; [lia|apply init_inv; lia]).
Qed.

(** C3: in every state a windowed sender reaches from its initial state,
    through any sequence of application inputs, arriving messages and timer
    expiries, [next_seq - base] is at most the window size: 10 for the
    at-least-once and the exactly-once sender, 4 for the ordered one. *)
Theorem window_invariant (proc_id receiver_id : string) (evs : list event) :
  (let s := (run (AtLeastOnceSender proc_id receiver_id) evs).1 in
   window s = 10 ∧ next_seq s - base s ≤ 10) ∧
  (let s := (run (ExactlyOnceSender proc_id receiver_id) evs).1 in
   window s = 10 ∧ next_seq s - base s ≤ 10) ∧
  (let s := (run (ExactlyOnceOrderedSender proc_id receiver_id) evs).1 in
   window s = 4 ∧ next_seq s - base s ≤ 4).
Proof.
  repeat split.
  1,2: by destruct (run_inv 10 evs (AtLeastOnceSender proc_id receiver_id));
         [apply init_inv; lia|]; lia.
  1,2: by destruct (run_inv 10 evs (ExactlyOnceSender proc_id receiver_id));
         [apply init_inv; lia|]; lia.
  1,2: by destruct (run_inv 4 evs (ExactlyOnceOrderedSender proc_id receiver_id));
         [apply init_inv; lia|]; lia.
Qed.



(** C5: when the retransmission timer of a windowed sender expires and
    nothing is outstanding, nothing is sent and the timer stays disarmed;
    otherwise the one message [DATA{base, unacked[base]}] is sent and the
    timer is armed again.  Nothing else is sent and the state of the
    sender is what it was. *)
Theorem go_back_one_retransmission (proc_id receiver_id : string) :
  Forall (λ s0, ∀ evs,
    let s := (run s0 evs).1 in
    if unacked_empty s
    then on_timer "rtx" s = (s, []) ∧ timer_active s = false
    else ∃ text,
      unacked s !! base s = Some text ∧
      on_timer "rtx" s =
        (s, [send (DATA (base s) text) (receiver s); set_timer_once "rtx" (13 # 2)]) ∧
      timer_active s = true)
    (windowed_senders proc_id receiver_id).
Proof.
  apply Forall_forall. intros s0 Hs0 evs s.
  destruct (windowed_senders_inv _ _ _ Hs0) as (w & Hw & Hinv0).
  pose proof (run_inv w evs s0 Hinv0) as [Hwin Hn Ht Hb Hsp Hk Hbase Htm].
  fold s in Hwin, Hn, Ht, Hb, Hsp, Hk, Hbase, Htm.
  unfold on_timer, _arm_timer, _send_data. rewrite Hn.
  rewrite bool_decide_eq_false_2 by (intros ?; done).
  change (unacked_empty (set_timer_active false s)) with (unacked_empty s).
  destruct (unacked_empty s) eqn:Hemp; simpl in *.
  - split; [|done]. destruct s; simpl in *. by subst.
  - destruct Hbase as [Heq|[text Htext]].
    + exfalso. unfold unacked_empty in Hemp. apply bool_decide_eq_false in Hemp.
      apply Hemp. apply map_eq. intros k. rewrite lookup_empty.
      apply eq_None_not_Some. intros Hk'%Hk. lia.
    + exists text. rewrite Htext. repeat split; try done.
      destruct s; simpl in *. by subst.
Qed.

(** C6: a sender of window 10 that takes 15 application inputs in a row,
    with no ACK and no timer expiry in between, transmits ten DATA messages,
    with the sequence numbers 1 to 10 and the texts of the first ten inputs,
    keeps the texts of inputs 11 to 15 in [pending], and arms the timer
    once, on the first input. *)
Theorem fifteen_inputs_window_ten (proc_id receiver_id : string) (text : nat → string) :
  Forall (λ s0,
    let inputs := (λ i, LocalMessage (MESSAGE (text i))) <$> seq 1 15 in
    let '(s, out) := run s0 inputs in
    out = send (DATA 1 (text 1%nat)) receiver_id
          :: set_timer_once "rtx" (13 # 2)
          :: ((λ i, send (DATA (Z.of_nat i) (text i)) receiver_id) <$> seq 2 9) ∧
    pending s = text <$> seq 11 5 ∧
    pending_idx s = 0%nat ∧
    dom (unacked s) = list_to_set (seqZ 1 10) ∧
    timer_armings out = 1%nat ∧
    timer_armings (step s0 (LocalMessage (MESSAGE (text 1%nat)))).2 = 1%nat)
    [AtLeastOnceSender proc_id receiver_id; ExactlyOnceSender proc_id receiver_id].
Proof.
  constructor; [|constructor; [|constructor]]; vm_compute; repeat split.
Qed.

End SenderFacts.

(** ** The at-most-once receiver *)
Section AtMostOnceFacts.
Import AtMostOnceReceiver AtMostOnceInv.

Lemma foldr_min_spec k ks :
  foldr Z.min k ks ∈ k :: ks ∧ ∀ j, j ∈ k :: ks → foldr Z.min k ks ≤ j.
Proof.
  induction ks as [|x ks [IHin IHle]]; simpl.
  - split; [left|]. intros j ->%list_elem_of_singleton. lia.
  - split.
    + destruct (Z.min_spec x (foldr Z.min k ks)) as [[_ ->]|[_ ->]].
      * right. left.
      * apply elem_of_cons in IHin as [->|Hin]; [left|]. right. by right.
    + intros j Hj. rewrite !elem_of_cons in Hj.
      destruct Hj as [->|[->|Hj]].
      * specialize (IHle k ltac:(left)). lia.
      * lia.
      * specialize (IHle j ltac:(by right)). lia.
Qed.

Lemma min_key_Some m k :
  min_key m = Some k → is_Some (m !! k) ∧ ∀ j, is_Some (m !! j) → k ≤ j.
Proof.
  unfold min_key. destruct (elements (dom m)) as [|x xs] eqn:E; [done|].
  intros [= <-]. destruct (foldr_min_spec x xs) as [Hin Hle].
  rewrite <-E in Hin, Hle. split.
  - by apply elem_of_dom, elem_of_elements.
  - intros j Hj. by apply Hle, elem_of_elements, elem_of_dom.
Qed.

Lemma min_key_is_Some m : m ≠ ∅ → is_Some (min_key m).
Proof.
  intros Hne. unfold min_key. destruct (elements (dom m)) as [|x xs] eqn:E; [|by eauto].
  exfalso. apply Hne. apply elements_empty_inv in E.
  by apply dom_empty_iff.
Qed.

Lemma amo_flush_loop_spec fuel : ∀ r,
  (size (buffer r) ≤ fuel)%nat →
  ∃ n', flush_loop fuel r =
          (mk (id r) n' (filter (λ kv, ¬ (next_seq r ≤ kv.1 < n')) (buffer r))
              (max_buffer r),
           flushed (buffer r) (next_seq r) n') ∧
        next_seq r ≤ n' ∧
        (∀ k, next_seq r ≤ k < n' → is_Some (buffer r !! k)) ∧
        buffer r !! n' = None.
Proof.
  induction fuel as [|fuel IH]; intros r Hsize; simpl.
  - assert (Hemp : buffer r = ∅) by (apply map_size_empty_inv; lia).
    exists (next_seq r). unfold flushed.
    rewrite Z.sub_diag, Hemp, map_filter_empty. destruct r; simpl in *; subst.
    repeat split; try done; try lia.
  - destruct (buffer r !! next_seq r) as [text|] eqn:Hlook.
    + set (r1 := mk _ _ _ _).
      destruct (IH r1) as (n' & E & Hle & Hkeys & Hnone); simpl in *.
      { rewrite map_size_delete_Some by eauto. lia. }
      rewrite E. exists n'. split; [|repeat split; try lia].
      * f_equal.
        -- f_equal. apply map_eq. intros k.
           rewrite !map_lookup_filter. simpl.
           destruct (decide (k = next_seq r)) as [->|Hne].
           ++ rewrite lookup_delete_eq, Hlook. simpl.
              rewrite option_guard_False; [done|]. intros Hn. apply Hn. lia.
           ++ rewrite lookup_delete_ne by done.
              destruct (buffer r !! k) as [v|]; [simpl|done].
              destruct (decide (next_seq r ≤ k < n')).
              ** rewrite !option_guard_False; [done| |]; intros Hn; apply Hn; lia.
              ** rewrite !option_guard_True; [done| |]; lia.
        -- unfold flushed, _deliver. simpl.
           rewrite (seqZ_cons (next_seq r)) by lia. simpl. rewrite Hlook. simpl.
           f_equal. replace (Z.pred (n' - next_seq r)) with (n' - (next_seq r + 1)) by lia.
           replace (Z.succ (next_seq r)) with (next_seq r + 1) by lia.
           apply list_fmap_ext. intros i k Hk.
           apply lookup_seqZ in Hk as [-> _].
           rewrite lookup_delete_ne by lia. done.
      * intros k Hk. destruct (decide (k = next_seq r)) as [->|Hne]; [by eauto|].
        destruct (Hkeys k) as [v Hv]; [lia|].
        rewrite lookup_delete_ne in Hv by done. eauto.
      * destruct (decide (n' = next_seq r)) as [->|Hne]; [lia|].
        by rewrite lookup_delete_ne in Hnone.
    + exists (next_seq r). unfold flushed. rewrite Z.sub_diag. simpl.
      split; [|repeat split; try done; try lia].
      f_equal. destruct r; simpl in *. f_equal.
      symmetry. apply map_filter_id. intros k v _. simpl. lia.
Qed.

Lemma amo_flush_spec r :
  ∃ n', _flush r =
          (mk (id r) n' (filter (λ kv, ¬ (next_seq r ≤ kv.1 < n')) (buffer r))
              (max_buffer r),
           flushed (buffer r) (next_seq r) n') ∧
        next_seq r ≤ n' ∧
        (∀ k, next_seq r ≤ k < n' → is_Some (buffer r !! k)) ∧
        buffer r !! n' = None.
Proof. by apply amo_flush_loop_spec. Qed.

Lemma amo_run_app r evs1 evs2 :
  run r (evs1 ++ evs2) =
  let '(r1, o1) := run r evs1 in
  let '(r2, o2) := run r1 evs2 in (r2, o1 ++ o2).
Proof.
  revert r. induction evs1 as [|e evs1 IH]; intros r; simpl.
  - by destruct (run r evs2).
  - destruct (step r e) as [r1 o1]. rewrite IH.
    destruct (run r1 evs1) as [r2 o2]. destruct (run r2 evs2) as [r3 o3].
    by rewrite app_assoc.
Qed.

Lemma filter_size_le (P : Z * string → Prop) `{!∀ x, Decision (P x)}
    (b : gmap Z string) :
  (size (filter P b) ≤ size b)%nat.
Proof. apply map_subseteq_size, map_filter_subseteq. Qed.

(** What [_skip_ahead] does to a receiver whose buffered keys are all
    ahead of [next_seq] and whose buffer is not empty. *)
Lemma amo_skip_ahead_spec r :
  buffer r ≠ ∅ → (∀ k, is_Some (buffer r !! k) → next_seq r < k) →
  ∃ k n',
    is_Some (buffer r !! k) ∧ next_seq r < k ∧
    (∀ j, is_Some (buffer r !! j) → k ≤ j) ∧
    k < n' ∧ (∀ j, k ≤ j < n' → is_Some (buffer r !! j)) ∧
    buffer r !! n' = None ∧
    _skip_ahead r =
      (mk (id r) n' (filter (λ kv, ¬ (k ≤ kv.1 < n')) (buffer r)) (max_buffer r),
       flushed (buffer r) k n').
Proof.
  intros Hne Hahead. unfold _skip_ahead.
  rewrite bool_decide_eq_false_2 by done.
  destruct (min_key_is_Some _ Hne) as [k Hk]. rewrite Hk.
  apply min_key_Some in Hk as [Hin Hmin].
  pose proof (Hahead k Hin) as Hlt.
  rewrite bool_decide_eq_false_2 by lia.
  destruct (amo_flush_spec (mk (id r) k (buffer r) (max_buffer r)))
    as (n' & E & Hle & Hkeys & Hnone). simpl in *.
  exists k, n'. repeat split; try done.
  destruct (decide (n' = k)) as [->|]; [|lia].
  rewrite Hnone in Hin. by destruct Hin.
Qed.

Lemma amo_on_message_inv m sender r : inv r → inv (on_message m sender r).1.
Proof.
  intros [Hcap Hsize Hahead]. unfold on_message.
  case_bool_decide; [done|]. case_bool_decide as Hold; [done|].
  unfold accept. case_bool_decide as Heq.
  - destruct (amo_flush_spec (mk (id r) (next_seq r + 1) (buffer r) (max_buffer r)))
      as (n' & E & Hle & Hkeys & Hnone). simpl in *. rewrite E.
    set (r1 := mk _ _ _ _).
    assert (Hcap1 : over_cap r1 = false).
    { apply bool_decide_eq_false. simpl.
      pose proof (filter_size_le (λ kv, ¬ (next_seq r + 1 ≤ kv.1 < n')) (buffer r)).
      lia. }
    rewrite Hcap1. split; simpl; [done| |].
    + etrans; [apply filter_size_le|done].
    + intros k [v Hv]. apply map_lookup_filter_Some in Hv as [Hv Hout]. simpl in Hout.
      specialize (Hahead k (ex_intro _ v Hv)).
      destruct (decide (k = n')) as [->|]; [congruence|lia].
  - destruct (buffer r !! msg_seq m) eqn:Hlook.
    + assert (Hcap1 : over_cap r = false).
      { apply bool_decide_eq_false. lia. }
      by rewrite Hcap1.
    + set (r1 := mk _ _ _ _).
      assert (Hahead1 : ∀ k, is_Some (buffer r1 !! k) → next_seq r1 < k).
      { intros k [v Hv]. simpl in *. destruct (decide (k = msg_seq m)) as [->|]; [lia|].
        rewrite lookup_insert_ne in Hv by done. eauto. }
      assert (Hsize1 : size (buffer r1) = S (size (buffer r))).
      { simpl. by apply map_size_insert_None. }
      destruct (over_cap r1) eqn:Hover.
      * destruct (amo_skip_ahead_spec r1) as (k & n' & Hin & Hlt & Hmin & Hkn & Hkeys & Hnone & E);
          [apply insert_non_empty|done|].
        rewrite E. split; simpl; [done| |].
        -- assert (size (filter (λ kv : Z * string, ¬ (k ≤ kv.1 < n')%Z) (buffer r1))
                   < size (buffer r1))%nat; [|simpl in *; lia].
           destruct Hin as [v Hv].
           apply (map_subset_size (M:=gmap Z)). split; [apply map_filter_subseteq|].
           intros Hsub. rewrite map_subseteq_spec in Hsub.
           specialize (Hsub k v Hv). apply map_lookup_filter_Some in Hsub as [_ Hout].
           simpl in Hout. lia.
        -- intros j [v Hv]. apply map_lookup_filter_Some in Hv as [Hv Hout]. simpl in Hout.
           specialize (Hmin j (ex_intro _ v Hv)).
           destruct (decide (j = n')) as [->|]; [|lia].
           unfold r1 in Hnone. simpl in Hnone. congruence.
      * apply bool_decide_eq_false in Hover. split; simpl in *; [done|lia|done].
Qed.

Lemma amo_step_inv r e : inv r → inv (step r e).1.
Proof. destruct e; simpl; auto using amo_on_message_inv. Qed.

Lemma amo_run_inv evs : ∀ r, inv r → inv (run r evs).1.
Proof.
  induction evs as [|e evs IH]; intros r Hr; simpl; [done|].
  pose proof (amo_step_inv r e Hr) as H1. destruct (step r e) as [r1 o1].
  specialize (IH r1 H1). by destruct (run r1 evs).
Qed.

Lemma amo_init_inv proc_id : inv (init proc_id).
Proof.
  split; simpl; [done| |].
  - rewrite map_size_empty. lia.
  - intros k [v Hv]. by rewrite lookup_empty in Hv.
Qed.

(** [next_seq] never moves back. *)
Lemma amo_step_next_seq_mono r e : next_seq r ≤ next_seq (step r e).1.
Proof.
  destruct e as [m|m sender|name]; simpl; try lia.
  unfold on_message. case_bool_decide; [simpl; lia|].
  case_bool_decide; [simpl; lia|].
  assert (Hacc : next_seq r ≤ next_seq (accept (msg_seq m) (msg_text m) r).1).
  { unfold accept. case_bool_decide.
    - destruct (amo_flush_spec (mk (id r) (next_seq r + 1) (buffer r) (max_buffer r)))
        as (n' & -> & Hle & _). simpl in *. lia.
    - destruct (buffer r !! msg_seq m); simpl; lia. }
  destruct (accept _ _ r) as [r1 o1]. simpl in Hacc.
  destruct (over_cap r1); [|simpl; lia].
  assert (Hskip : next_seq r1 ≤ next_seq (_skip_ahead r1).1).
  { unfold _skip_ahead. case_bool_decide; [simpl; lia|].
    destruct (min_key (buffer r1)) as [k|]; [|simpl; lia].
    case_bool_decide; [simpl; lia|].
    destruct (amo_flush_spec (mk (id r1) k (buffer r1) (max_buffer r1)))
      as (n' & -> & Hle & _). simpl in *. lia. }
  destruct (_skip_ahead r1). simpl in *. lia.
Qed.

Lemma amo_run_next_seq_mono evs : ∀ r, next_seq r ≤ next_seq (run r evs).1.
Proof.
  induction evs as [|e evs IH]; intros r; simpl; [lia|].
  pose proof (amo_step_next_seq_mono r e) as H1. destruct (step r e) as [r1 o1].
  specialize (IH r1). destruct (run r1 evs). simpl in *. lia.
Qed.

Lemma lookup_buffered txt seqs : ∀ b k,
  buffered txt b seqs !! k = if bool_decide (k ∈ seqs) then Some (txt k) else b !! k.
Proof.
  induction seqs as [|s seqs IH]; intros b k.
  - rewrite bool_decide_eq_false_2; [done|]. apply not_elem_of_nil.
  - unfold buffered in *. cbn [foldl]. rewrite IH. case_bool_decide as Hin.
    + rewrite bool_decide_eq_true_2; [done|]. by right.
    + destruct (decide (k = s)) as [->|Hne].
      * rewrite lookup_insert_eq, bool_decide_eq_true_2; [done|]. left.
      * rewrite lookup_insert_ne by done.
        rewrite bool_decide_eq_false_2; [done|].
        intros [?|?]%elem_of_cons; done.
Qed.

Lemma buffered_perm txt b seqs seqs' :
  seqs ≡ₚ seqs' → buffered txt b seqs = buffered txt b seqs'.
Proof.
  intros Hp. apply map_eq. intros k. rewrite !lookup_buffered.
  destruct (decide (k ∈ seqs)) as [Hin|Hin].
  - rewrite !bool_decide_eq_true_2; [done| |done]. by rewrite <-Hp.
  - rewrite !bool_decide_eq_false_2; [done| |done]. by rewrite <-Hp.
Qed.

Lemma size_buffered txt (l : list Z) :
  NoDup l → size (buffered txt ∅ l) = length l.
Proof.
  induction l as [|s l IH] using rev_ind; intros Hnd.
  - apply map_size_empty.
  - apply NoDup_app in Hnd as (Hnd & Hs & _).
    pose proof (lookup_buffered txt l ∅ s) as Hlk.
    unfold buffered in *. rewrite foldl_snoc, length_app. simpl.
    rewrite map_size_insert_None.
    + rewrite IH by done. lia.
    + rewrite Hlk, bool_decide_eq_false_2; [apply lookup_empty|].
      intros Hin. apply (Hs s Hin). left.
Qed.

(** Arrivals ahead of [next_seq], each for the first time, are put into
    the buffer and nothing else happens, as long as they fit under the cap. *)
Lemma run_buffering sender txt seqs : ∀ r,
  NoDup seqs →
  (∀ s, s ∈ seqs → next_seq r < s ∧ buffer r !! s = None) →
  Z.of_nat (size (buffer r) + length seqs) ≤ max_buffer r →
  run r (arrivals sender txt seqs) =
    (mk (id r) (next_seq r) (buffered txt (buffer r) seqs) (max_buffer r), []).
Proof.
  induction seqs as [|s seqs IH]; intros r Hnd Hnew Hfit; simpl.
  - by destruct r.
  - apply NoDup_cons in Hnd as [Hs Hnd].
    destruct (Hnew s) as [Hlt Hnone]; [left|].
    unfold on_message, accept. simpl.
    rewrite bool_decide_eq_false_2 by lia.
    rewrite bool_decide_eq_false_2 by lia.
    rewrite Hnone. set (r1 := mk _ _ _ _).
    assert (Hsize1 : size (buffer r1) = S (size (buffer r))).
    { simpl. by apply map_size_insert_None. }
    assert (Hcap1 : over_cap r1 = false).
    { apply bool_decide_eq_false. simpl in *. lia. }
    rewrite Hcap1. rewrite (IH r1); simpl; try done.
    + intros s' Hs'. destruct (Hnew s') as [? ?]; [by right|].
      split; [done|]. rewrite lookup_insert_ne; [done|]. by intros ->.
    + simpl in *. lia.
Qed.

(** Once [next_seq] has passed a sequence number, its arrival does nothing. *)
Lemma amo_on_message_late seq text sender r :
  seq < next_seq r → on_message (DATA seq text) sender r = (r, []).
Proof.
  intros Hlt. unfold on_message. simpl.
  by rewrite bool_decide_eq_true_2.
Qed.

(** C7: when the buffer of the at-most-once receiver holds more than 12
    entries after a DATA arrival, [next_seq] jumps to the least buffered
    key, which is ahead of [next_seq], and the buffered texts are handed
    over from there for as long as the keys are contiguous.  When 2, ..., 14
    arrive in any order at a fresh receiver, the first twelve arrivals are
    buffered, the thirteenth exceeds the cap, [next_seq] jumps to 2, the
    texts of 2, ..., 14 are handed over in that order, and no later arrival
    of 1 has any effect. *)
Theorem skip_ahead_over_cap (proc_id : string) :
  (∀ evs m sender,
     msg_type m = "DATA" →
     let r := (run (init proc_id) evs).1 in
     let mid := if bool_decide (msg_seq m < next_seq r) then (r, [])
                else accept (msg_seq m) (msg_text m) r in
     over_cap mid.1 = true →
     ∃ k n',
       is_Some (buffer mid.1 !! k) ∧ next_seq mid.1 < k ∧
       (∀ j, is_Some (buffer mid.1 !! j) → k ≤ j) ∧
       k < n' ∧ (∀ j, k ≤ j < n' → is_Some (buffer mid.1 !! j)) ∧
       buffer mid.1 !! n' = None ∧
       on_message m sender r =
         (mk proc_id n' (filter (λ kv, ¬ (k ≤ kv.1 < n')) (buffer mid.1)) 12,
          mid.2 ++ flushed (buffer mid.1) k n')) ∧
  (∀ sender txt seqs,
     seqs ≡ₚ seqZ 2 13 →
     let evs := arrivals sender txt seqs in
     let r12 := (run (init proc_id) (take 12 evs)).1 in
     (run (init proc_id) (take 12 evs)).2 = [] ∧ next_seq r12 = 1 ∧
     over_cap r12 = false ∧
     (∃ x, seqs !! 12%nat = Some x ∧
           let mid := (accept x (txt x) r12).1 in
           over_cap mid = true ∧ next_seq mid = 1 ∧ min_key (buffer mid) = Some 2) ∧
     run (init proc_id) evs =
       (mk proc_id 15 ∅ 12, (λ k, send_local (MESSAGE (txt k))) <$> seqZ 2 13) ∧
     ∀ evs' text sender',
       let r' := (run (mk proc_id 15 ∅ 12) evs').1 in
       on_message (DATA 1 text) sender' r' = (r', [])).
Proof.
  split.
  - intros evs m sender Hty r mid Hover.
    pose proof (amo_run_inv evs (init proc_id) (amo_init_inv proc_id)) as Hinv.
    fold r in Hinv. destruct Hinv as [Hcap Hsize Hahead].
    assert (Hid : ∀ evs r0, id (run r0 evs).1 = id r0).
    { clear. induction evs as [|e evs IH]; intros r0; simpl; [done|].
      assert (H1 : id (step r0 e).1 = id r0).
      { destruct e as [m|m sender|name]; simpl; try done.
        unfold on_message. case_bool_decide; [done|]. case_bool_decide; [done|].
        assert (id (accept (msg_seq m) (msg_text m) r0).1 = id r0).
        { unfold accept. case_bool_decide.
          - by destruct (amo_flush_spec (mk (id r0) (next_seq r0 + 1) (buffer r0)
                                         (max_buffer r0))) as (n' & -> & _).
          - by destruct (buffer r0 !! msg_seq m). }
        destruct (accept _ _ r0) as [r1 o1]. simpl in *.
        destruct (over_cap r1); [|done].
        unfold _skip_ahead. case_bool_decide; [done|].
        destruct (min_key (buffer r1)) as [k|]; [|done].
        case_bool_decide; [done|].
        by destruct (amo_flush_spec (mk (id r1) k (buffer r1) (max_buffer r1)))
          as (n' & -> & _). }
      destruct (step r0 e) as [r1 o1]. specialize (IH r1).
      destruct (run r1 evs). simpl in *. congruence. }
    specialize (Hid evs (init proc_id)). fold r in Hid. simpl in Hid.
    unfold on_message. rewrite bool_decide_eq_false_2 by (intros ?; done).
    subst mid. case_bool_decide as Hold.
    { simpl in Hover. apply bool_decide_eq_true in Hover. lia. }
    unfold accept in *. case_bool_decide as Heq.
    { destruct (amo_flush_spec (mk (id r) (next_seq r + 1) (buffer r) (max_buffer r)))
        as (n' & E & _). rewrite E in Hover. simpl in Hover.
      apply bool_decide_eq_true in Hover. simpl in Hover.
      pose proof (filter_size_le (λ kv, ¬ (next_seq r + 1 ≤ kv.1 < n')) (buffer r)).
      lia. }
    destruct (buffer r !! msg_seq m) eqn:Hlook.
    { simpl in Hover. apply bool_decide_eq_true in Hover. lia. }
    simpl in Hover. rewrite Hover. simpl.
    set (r1 := mk _ _ _ _) in *.
    destruct (amo_skip_ahead_spec r1) as (k & n' & Hin & Hlt & Hmin & Hkn & Hkeys & Hnone & E).
    { apply insert_non_empty. }
    { intros k [v Hv]. simpl in *. destruct (decide (k = msg_seq m)) as [->|]; [lia|].
      rewrite lookup_insert_ne in Hv by done. eauto. }
    exists k, n'. rewrite E. simpl. rewrite Hid, Hcap. done.
  - intros sender txt seqs Hp evs r12.
    assert (Hlen : length seqs = 13%nat) by (by rewrite Hp).
    assert (Hnd : NoDup seqs) by (rewrite Hp; apply NoDup_seqZ).
    assert (Hrange : ∀ s, s ∈ seqs → 2 ≤ s < 15).
    { intros s Hs. rewrite Hp in Hs. apply elem_of_seqZ in Hs. lia. }
    destruct (drop 12 seqs) as [|x [|y rest]] eqn:Hdrop;
      [apply (f_equal length) in Hdrop; rewrite length_drop in Hdrop; simpl in *; lia
      | |apply (f_equal length) in Hdrop; rewrite length_drop in Hdrop; simpl in *; lia].
    assert (Hsplit : seqs = take 12 seqs ++ [x]).
    { by rewrite <-Hdrop, take_drop. }
    assert (Hnd12 : NoDup (take 12 seqs) ∧ x ∉ take 12 seqs).
    { rewrite Hsplit in Hnd. apply NoDup_app in Hnd as (? & Hx & _).
      split; [done|]. intros Hin. apply (Hx x Hin). left. }
    destruct Hnd12 as [Hnd12 Hx].
    assert (E12 : run (init proc_id) (take 12 evs) =
                  (mk proc_id 1 (buffered txt ∅ (take 12 seqs)) 12, [])).
    { subst evs. unfold arrivals. rewrite <-fmap_take.
      apply (run_buffering sender txt (take 12 seqs) (init proc_id)); simpl; try done.
      - intros s Hs. split; [|apply lookup_empty].
        assert (s ∈ seqs) by (rewrite Hsplit; apply elem_of_app; by left).
        specialize (Hrange s H). lia.
      - rewrite map_size_empty, length_take. lia. }
    assert (Hsize12 : size (buffered txt ∅ (take 12 seqs)) = 12%nat).
    { rewrite size_buffered, length_take by done. lia. }
    assert (Hmid : (accept x (txt x) (mk proc_id 1 (buffered txt ∅ (take 12 seqs)) 12)).1
                   = mk proc_id 1 (buffered txt ∅ (seqZ 2 13)) 12).
    { unfold accept. cbn -[buffered].
      assert (2 ≤ x < 15).
      { apply Hrange. rewrite Hsplit. apply elem_of_app. right. left. }
      rewrite bool_decide_eq_false_2 by lia.
      rewrite lookup_buffered, bool_decide_eq_false_2, lookup_empty by done.
      cbn -[buffered]. f_equal.
      rewrite <-(buffered_perm txt ∅ seqs (seqZ 2 13) Hp).
      rewrite Hsplit at 2. unfold buffered. by rewrite foldl_snoc. }
    subst r12. rewrite E12. simpl.
    split; [done|]. split; [done|]. split.
    { apply bool_decide_eq_false. simpl. lia. }
    split.
    { exists x. split.
      - rewrite <-(Nat.add_0_r 12), <-lookup_drop, Hdrop. done.
      - simpl. rewrite Hmid. vm_compute. done. }
    split.
    { subst evs. rewrite Hsplit. unfold arrivals. rewrite fmap_app, amo_run_app.
      fold (arrivals sender txt (take 12 seqs)).
      change (arrivals sender txt (take 12 seqs))
        with ((λ s, WireMessage (DATA s (txt s)) sender) <$> take 12 seqs).
      rewrite fmap_take. fold (arrivals sender txt seqs).
      rewrite E12. simpl.
      unfold on_message. simpl.
      assert (2 ≤ x < 15).
      { apply Hrange. rewrite Hsplit. apply elem_of_app. right. left. }
      rewrite bool_decide_eq_false_2 by lia.
      destruct (accept x (txt x) _) as [mid o] eqn:Eacc. simpl in Hmid. subst mid.
      assert (o = []) as ->.
      { revert Eacc. unfold accept. simpl.
        rewrite bool_decide_eq_false_2 by lia.
        rewrite lookup_buffered, bool_decide_eq_false_2, lookup_empty by done.
        by intros [= _ <-]. }
      vm_compute. done. }
    intros evs' text sender'. apply amo_on_message_late.
    pose proof (amo_run_next_seq_mono evs' (mk proc_id 15 ∅ 12)) as Hm.
    simpl in Hm. lia.
Qed.

End AtMostOnceFacts.

(** ** The exactly-once-ordered receiver *)
Section OrderedFacts.
Import ExactlyOnceOrderedReceiver OrderedInv.
Variable txt : Z → string.

Lemma delivered_texts_app o1 o2 :
  delivered_texts (o1 ++ o2) = delivered_texts o1 ++ delivered_texts o2.
Proof. apply flat_map_app. Qed.

Lemma acks_sent_app o1 o2 : acks_sent (o1 ++ o2) = acks_sent o1 ++ acks_sent o2.
Proof. apply flat_map_app. Qed.

Lemma delivered_texts_deliveries (l : list Z) :
  delivered_texts ((λ k, send_local (MESSAGE (txt k))) <$> l) = txt <$> l.
Proof. induction l as [|k l IH]; simpl; [done|]. by f_equal. Qed.

Lemma acks_sent_deliveries (l : list Z) :
  acks_sent ((λ k, send_local (MESSAGE (txt k))) <$> l) = [].
Proof. induction l as [|k l IH]; simpl; done. Qed.

Lemma flush_loop_ordered arrived fuel : ∀ r,
  (size (buffer r) ≤ fuel)%nat → holds txt arrived r →
  ∃ r', flush_loop fuel r =
          (r', ((λ k, send_local (MESSAGE (txt k)))
                <$> seqZ (next_seq r) (next_seq r' - next_seq r))) ∧
        id r' = id r ∧ next_seq r ≤ next_seq r' ∧
        holds txt arrived r' ∧ (next_seq r' ∉ arrived) ∧
        (∀ k, next_seq r ≤ k < next_seq r' → k ∈ arrived).
Proof.
  induction fuel as [|fuel IH]; intros r Hsize Hholds; simpl.
  - assert (Hemp : buffer r = ∅) by (apply map_size_empty_inv; lia).
    exists r. rewrite Z.sub_diag. repeat split; try done; try lia.
    intros Hin. specialize (Hholds (next_seq r)).
    rewrite Hemp, lookup_empty, bool_decide_eq_true_2 in Hholds; [done|].
    split; [done|lia].
  - destruct (buffer r !! next_seq r) as [text|] eqn:Hlook.
    + pose proof (Hholds (next_seq r)) as Hn. rewrite Hlook in Hn.
      case_bool_decide as Harr; [|done]. injection Hn as ->.
      set (r1 := mk _ _ _).
      destruct (IH r1) as (r' & E & Hid & Hle & Hh' & Hnot & Hbetween); simpl in *.
      { rewrite map_size_delete_Some by eauto. lia. }
      { intros k. simpl. destruct (decide (k = next_seq r)) as [->|Hne].
        - rewrite lookup_delete_eq, bool_decide_eq_false_2; [done|]. lia.
        - rewrite lookup_delete_ne by done. rewrite Hholds.
          destruct (decide (k ∈ arrived ∧ next_seq r ≤ k)) as [Hk|Hk].
          + rewrite !bool_decide_eq_true_2; [done| |done]. split; [tauto|lia].
          + rewrite !bool_decide_eq_false_2; [done| |done].
            intros [? ?]. apply Hk. split; [done|lia]. }
      rewrite E. exists r'. repeat split; try done; try lia.
      * f_equal. unfold _deliver. simpl.
        rewrite (seqZ_cons (next_seq r)) by lia. rewrite fmap_cons.
        do 3 f_equal; lia.
      * intros k Hk. destruct (decide (k = next_seq r)) as [->|]; [tauto|].
        apply Hbetween. lia.
    + exists r. rewrite Z.sub_diag. repeat split; try done; try lia.
      intros Hin. specialize (Hholds (next_seq r)).
      rewrite Hlook, bool_decide_eq_true_2 in Hholds; [done|]. split; [done|lia].
Qed.

Lemma elem_of_snoc (l : list Z) s k : k ∈ l ++ [s] ↔ k ∈ l ∨ k = s.
Proof. rewrite elem_of_app, list_elem_of_singleton. done. Qed.

(** Case analysis on the tests of [holds], membership in [arrived ++ [s]]
    spelled out. *)
Ltac holds_cases :=
  repeat case_bool_decide; subst; try done; exfalso;
  repeat match goal with
         | H : context [_ ∈ _ ++ [_]] |- _ => rewrite elem_of_snoc in H
         end;
  intuition (try lia; try congruence).

Lemma on_message_ordered arrived s sender r :
  inv txt arrived r →
  ∃ r', on_message (DATA s (txt s)) sender r =
          (r', ((λ k, send_local (MESSAGE (txt k)))
                <$> seqZ (next_seq r) (next_seq r' - next_seq r))
               ++ [send (ACK s) sender]) ∧
        id r' = id r ∧ next_seq r ≤ next_seq r' ∧ inv txt (arrived ++ [s]) r'.
Proof.
  intros [Hpos Hholds Hnext Hbelow]. unfold on_message. simpl.
  case_bool_decide as Hold.
  { exists r. rewrite Z.sub_diag. simpl. split; [done|].
    split; [done|]. split; [lia|]. split; try done.
    - intros k. rewrite Hholds. holds_cases.
    - rewrite elem_of_snoc. intros [?|?]; [done|lia].
    - intros k Hk. rewrite elem_of_snoc. left. by apply Hbelow. }
  case_bool_decide as Heq.
  - subst s. set (r0 := mk _ _ _).
    destruct (flush_loop_ordered (arrived ++ [next_seq r]) (size (buffer r0)) r0)
      as (r' & E & Hid & Hle & Hh' & Hnot & Hbetween); [done| |].
    { intros k. simpl. rewrite Hholds.
      destruct (decide (k = next_seq r)) as [->|]; holds_cases. }
    unfold _flush. rewrite E. simpl in *. exists r'.
    split; [|split; [done|split; [lia|split; try done; try lia]]].
    + f_equal. unfold _deliver.
      rewrite (seqZ_cons (next_seq r)) by lia. rewrite fmap_cons. simpl.
      do 4 f_equal; lia.
    + intros k Hk. destruct (decide (k < next_seq r)).
      * rewrite elem_of_snoc. left. apply Hbelow. lia.
      * destruct (decide (k = next_seq r)) as [->|].
        -- rewrite elem_of_snoc. by right.
        -- apply Hbetween. lia.
  - assert (Hins : ∀ b, (∀ k, b !! k = if bool_decide (k = s) then Some (txt s)
                                      else buffer r !! k) →
             inv txt (arrived ++ [s]) (mk (id r) (next_seq r) b)).
    { intros b Hb. split; simpl; try done.
      - intros k. simpl. rewrite Hb, Hholds. holds_cases.
      - rewrite elem_of_snoc. intros [?|?]; [done|lia].
      - intros k Hk. rewrite elem_of_snoc. left. by apply Hbelow. }
    destruct (buffer r !! s) as [text|] eqn:Hlook.
    + exists r. rewrite Z.sub_diag. simpl.
      split; [done|]. split; [done|]. split; [lia|].
      assert (Hr : r = mk (id r) (next_seq r) (buffer r)) by (by destruct r).
      rewrite Hr. apply Hins. simpl. intros k. case_bool_decide as Hks; [|done].
      subst k. pose proof (Hholds s) as Hs. rewrite Hlook in Hs.
      case_bool_decide; [|done]. by rewrite Hlook, Hs.
    + exists (mk (id r) (next_seq r) (<[s:=txt s]> (buffer r))).
      simpl. rewrite Z.sub_diag. simpl.
      split; [done|]. split; [done|]. split; [lia|].
      apply Hins. intros k. case_bool_decide as Hks.
      * subst k. apply lookup_insert_eq.
      * by rewrite lookup_insert_ne.
Qed.

Lemma run_ordered sender seqs : ∀ arrived r,
  inv txt arrived r →
  ∃ r' out, run r (arrivals sender txt seqs) = (r', out) ∧
        delivered_texts out =
          txt <$> seqZ (next_seq r) (next_seq r' - next_seq r) ∧
        acks_sent out = seqs ∧
        next_seq r ≤ next_seq r' ∧ inv txt (arrived ++ seqs) r'.
Proof.
  induction seqs as [|s seqs IH]; intros arrived r Hinv; simpl.
  - exists r, []. rewrite Z.sub_diag, app_nil_r.
    split; [done|]. split; [done|]. split; [done|]. split; [lia|done].
  - destruct (on_message_ordered arrived s sender r Hinv) as (r1 & E & _ & Hle & H1).
    rewrite E.
    destruct (IH (arrived ++ [s]) r1 H1) as (r' & out & E' & Hd & Ha & Hle' & H').
    rewrite E'. eexists r', _. split; [reflexivity|].
    rewrite <-app_assoc in H'. simpl in H'.
    rewrite !delivered_texts_app, !acks_sent_app, Hd, Ha.
    rewrite delivered_texts_deliveries, acks_sent_deliveries. simpl.
    split; [|split; [done|split; [lia|done]]].
    rewrite app_nil_r, <-fmap_app. f_equal.
    replace (next_seq r' - next_seq r)
      with ((next_seq r1 - next_seq r) + (next_seq r' - next_seq r1)) by lia.
    rewrite seqZ_app by lia. do 2 f_equal. lia.
Qed.

(** C2: whatever copies of [DATA{s, txt s}] arrive at the ordered receiver
    and in whatever order, the texts handed to the application are the texts
    of 1, 2, ..., [next_seq - 1] in that order: the k-th delivery is the text
    of sequence number k, nothing is delivered twice and nothing is skipped.
    Every sequence number delivered has arrived, [next_seq] has not, and
    every arrival is acknowledged. *)
Theorem ordered_delivery (proc_id sender : string) (seqs : list Z) :
  let '(r, out) := run (init proc_id) (arrivals sender txt seqs) in
  delivered_texts out = txt <$> seqZ 1 (next_seq r - 1) ∧
  1 ≤ next_seq r ∧
  (∀ k, 1 ≤ k < next_seq r → k ∈ seqs) ∧
  (next_seq r ∉ seqs) ∧
  acks_sent out = seqs.
Proof.
  assert (H0 : inv txt [] (init proc_id)).
  { split; simpl; [lia| |apply not_elem_of_nil|lia].
    intros k. unfold init. cbn [buffer next_seq]. rewrite lookup_empty.
    rewrite bool_decide_eq_false_2; [done|].
    intros [Hk _]. by apply elem_of_nil in Hk. }
  destruct (run_ordered sender seqs [] (init proc_id) H0)
    as (r' & out & E & Hd & Ha & Hle & [Hpos Hholds Hnext Hbelow]).
  rewrite E. simpl in *. repeat split; try done.
Qed.

End OrderedFacts.

(** ** The exactly-once receiver *)
Section DedupFacts.
Import ExactlyOnceReceiver DedupInv.
























End DedupFacts.

(** ** Unrecognized message types *)

(** C9: a message whose type is not the one the handler reacts to leaves
    the component as it is and causes no operation: anything but MESSAGE at
    the [on_local_message] of a sender, anything but ACK at the [on_message]
    of a windowed sender, anything but DATA at the [on_message] of a receiver. *)
Theorem unrecognized_types_ignored (m : Message) (sender : string) :
  (msg_type m ≠ "MESSAGE" →
     (∀ s, AtMostOnceSender.on_local_message m s = (s, [])) ∧
     (∀ s, Sender.on_local_message m s = (s, []))) ∧
  (msg_type m ≠ "ACK" → ∀ s, Sender.on_message m sender s = (s, [])) ∧
  (msg_type m ≠ "DATA" →
     (∀ r, AtMostOnceReceiver.on_message m sender r = (r, [])) ∧
     (∀ r, AtLeastOnceReceiver.on_message m sender r = (r, [])) ∧
     (∀ r, ExactlyOnceReceiver.on_message m sender r = Some (r, [])) ∧
     (∀ r, ExactlyOnceOrderedReceiver.on_message m sender r = (r, []))).
Proof.
  repeat split; intros;
    unfold AtMostOnceSender.on_local_message, Sender.on_local_message,
      Sender.on_message, AtMostOnceReceiver.on_message,
      AtLeastOnceReceiver.on_message, ExactlyOnceReceiver.on_message,
      ExactlyOnceOrderedReceiver.on_message;
    by rewrite bool_decide_eq_true_2.
Qed.

(** * Further properties of the code *)

(** ** The at-most-once sender *)
Section AtMostOnceSenderFacts.
Import AtMostOnceSender AtMostOnceSenderRun.

(** The at-most-once sender transmits one DATA message for each MESSAGE
    input, in the order of the inputs, with consecutive sequence numbers
    from [next_seq] on and the text of the input; other events cause
    nothing, and [next_seq] ends one above the last number used. *)
Theorem at_most_once_sender_numbers (s : t) (evs : list event) :
  let '(s', out) := run s evs in
  out = imap (λ i text, send (DATA (next_seq s + Z.of_nat i) text) (receiver s))
             (inputs evs) ∧
  next_seq s' = next_seq s + Z.of_nat (length (inputs evs)) ∧
  receiver s' = receiver s ∧ id s' = id s.
Proof.
  revert s. induction evs as [|e evs IH]; intros s.
  - simpl. repeat split; lia.
  - cbn [run]. destruct (step s e) as [s1 o1] eqn:E1.
    specialize (IH s1). destruct (run s1 evs) as [s2 o2].
    destruct IH as (-> & Hn & Hr & Hi).
    assert (Hcase : (s1 = s ∧ o1 = [] ∧ inputs (e :: evs) = inputs evs) ∨
              (next_seq s1 = next_seq s + 1 ∧ receiver s1 = receiver s ∧
               id s1 = id s ∧
               ∃ text, o1 = [send (DATA (next_seq s) text) (receiver s)] ∧
                       inputs (e :: evs) = text :: inputs evs)).
    { destruct e as [m|m sender|name]; simpl in E1.
      - unfold on_local_message in E1. unfold inputs. simpl.
        destruct (decide (msg_type m = "MESSAGE")) as [Hty|Hty].
        + right. rewrite bool_decide_eq_false_2 in E1 by (intros ?; done).
          rewrite bool_decide_eq_true_2 by done.
          injection E1 as <- <-. simpl. eauto 10.
        + left. rewrite bool_decide_eq_true_2 in E1 by done.
          rewrite bool_decide_eq_false_2 by done. by injection E1 as <- <-.
      - left. by injection E1 as <- <-.
      - left. by injection E1 as <- <-. }
    destruct Hcase as [(-> & -> & ->)|(Hn1 & Hr1 & Hi1 & text & -> & ->)].
    + done.
    + simpl. rewrite Hn, Hr, Hi, Hn1, Hr1, Hi1, Z.add_0_r.
      split; [|repeat split; lia]. f_equal.
      apply imap_ext. intros i x _. simpl. do 2 f_equal. lia.
Qed.

End AtMostOnceSenderFacts.

(** ** The at-least-once receiver *)
Section AtLeastOnceReceiverFacts.
Import AtLeastOnceReceiver AtLeastOnceReceiverRun.

(** The at-least-once receiver delivers and acknowledges every DATA
    arrival, in the order of arrival and as often as it arrives: the texts
    delivered are the texts of the arrivals, copies included, and the
    acknowledged numbers are their sequence numbers. *)
Theorem at_least_once_every_arrival (r : t) (sender : string) (txt : Z → string)
    (seqs : list Z) :
  let '(r', out) := run r (arrivals sender txt seqs) in
  r' = r ∧
  out = flat_map (λ s, [send_local (MESSAGE (txt s)); send (ACK s) sender]) seqs ∧
  delivered_texts out = txt <$> seqs ∧
  acks_sent out = seqs.
Proof.
  induction seqs as [|s seqs IH]; [done|].
  simpl. destruct (run r (arrivals sender txt seqs)) as [r' out].
  destruct IH as (-> & -> & Hd & Ha). simpl. rewrite Hd, Ha. done.
Qed.

End AtLeastOnceReceiverFacts.

(** ** More on the at-most-once receiver *)
Section AtMostOnceBound.
Import AtMostOnceReceiver AtMostOnceInv.

(** Between two reactions the buffer of the at-most-once receiver holds at
    most 12 entries, whatever arrives, and every buffered sequence number is
    ahead of [next_seq]. *)
Theorem at_most_once_buffer_bounded (proc_id : string) (evs : list event) :
  let r := (run (init proc_id) evs).1 in
  (size (buffer r) ≤ 12)%nat ∧
  max_buffer r = 12 ∧
  1 ≤ next_seq r ∧
  ∀ k, is_Some (buffer r !! k) → next_seq r < k.
Proof.
  pose proof (amo_run_inv evs (init proc_id) (amo_init_inv proc_id)) as [Hc Hs Ha].
  pose proof (amo_run_next_seq_mono evs (init proc_id)) as Hm.
  simpl in *. done.
Qed.

End AtMostOnceBound.

(** ** More on the windowed sender *)
Section SenderBounds.
Import Sender SenderInv.

(** A windowed sender never has more texts outstanding than its window:
    at most 10 for the at-least-once and exactly-once senders, 4 for the
    ordered one. *)
Theorem unacked_within_window (proc_id receiver_id : string) :
  Forall (λ s0, ∀ evs,
    let s := (run s0 evs).1 in
    Z.of_nat (size (unacked s)) ≤ next_seq s - base s ∧
    Z.of_nat (size (unacked s)) ≤ window s ∧ window s = window s0)
    (windowed_senders proc_id receiver_id).
Proof.
  apply Forall_forall. intros s0 Hs0 evs s.
  destruct (windowed_senders_inv _ _ _ Hs0) as (w & Hw & Hinv0).
  assert (Hw0 : window s0 = w) by (by destruct Hinv0).
  pose proof (run_inv w evs s0 Hinv0) as [Hwin Hn Ht Hb Hsp Hk Hbase Htm].
  fold s in Hwin, Hn, Ht, Hb, Hsp, Hk, Hbase, Htm.
  assert (Hsize : Z.of_nat (size (unacked s)) ≤ next_seq s - base s).
  { rewrite <-size_dom.
    assert (Hsub : dom (unacked s) ⊆
                   (list_to_set (seqZ (base s) (next_seq s - base s)) : gset Z)).
    { intros k Hk'. apply elem_of_dom, Hk in Hk'.
      apply elem_of_list_to_set, elem_of_seqZ. lia. }
    apply subseteq_size in Hsub.
    rewrite size_list_to_set, length_seqZ in Hsub by apply NoDup_seqZ. lia. }
  split; [done|]. split; [lia|congruence].
Qed.

Lemma _try_send_pending_cursor s : cursor_low (_try_send_pending s).1.
Proof.
  unfold _try_send_pending, cursor_low.
  destruct (drain_pending _ s) as [s1 o1].
  destruct (bool_decide (0 < pending_idx s1)%nat) eqn:H1;
    destruct (bool_decide (length (pending s1) ≤ pending_idx s1 * 2)%nat) eqn:H2;
    simpl.
  - by left.
  - apply bool_decide_eq_false in H2. right. lia.
  - apply bool_decide_eq_false in H1. left. lia.
  - apply bool_decide_eq_false in H1. left. lia.
Qed.

Lemma step_cursor s e : cursor_low s → cursor_low (step s e).1.
Proof.
  intros Hc. destruct e as [m|m sender|name]; simpl.
  - unfold on_local_message. case_bool_decide; [done|].
    destruct (_has_window_space s).
    + destruct (assign_and_send_fields (msg_text m) s) as (_ & _ & _ & Ep & Ei & _).
      unfold cursor_low. by rewrite Ep, Ei.
    + unfold cursor_low in *. simpl. rewrite length_app. simpl. lia.
  - unfold on_message. case_bool_decide; [done|].
    destruct (slide_base _ _ _) as [s2 c].
    destruct (if unacked_empty s2 then _ else _) as [s3 o3].
    pose proof (_try_send_pending_cursor s3) as H4.
    by destruct (_try_send_pending s3).
  - unfold on_timer, _arm_timer. case_bool_decide; [done|].
    change (unacked_empty (set_timer_active false s)) with (unacked_empty s).
    by destruct (unacked_empty s).
Qed.

Lemma run_cursor evs : ∀ s, cursor_low s → cursor_low (run s evs).1.
Proof.
  induction evs as [|e evs IH]; intros s Hs; simpl; [done|].
  pose proof (step_cursor s e Hs) as H1. destruct (step s e) as [s1 o1].
  specialize (IH s1 H1). by destruct (run s1 evs).
Qed.

(** The read cursor of [pending] never passes the middle of the list: it
    is 0 or less than half the length, in every state a windowed sender
    reaches, so the texts already sent take less room than the ones waiting. *)
Theorem pending_cursor_low (proc_id receiver_id : string) (w : Z) (evs : list event) :
  cursor_low (run (init proc_id receiver_id w) evs).1.
Proof. apply run_cursor. by left. Qed.

End SenderBounds.

(** ** Order of delivery at the at-most-once receiver *)
Section AtMostOnceOrder.
Import AtMostOnceReceiver AtMostOnceInv.
Variable txt : Z → string.

Lemma increasing_seqZ a n : increasing (seqZ a n).
Proof.
  intros i j x y Hi Hj Hij.
  apply lookup_seqZ in Hi as [-> _]. apply lookup_seqZ in Hj as [-> _]. lia.
Qed.

Lemma increasing_app l1 l2 :
  increasing l1 → increasing l2 →
  (∀ x y, x ∈ l1 → y ∈ l2 → x < y) → increasing (l1 ++ l2).
Proof.
  intros H1 H2 H12 i j x y Hi Hj Hij.
  apply lookup_app_Some in Hi as [Hi|[Hli Hi]];
    apply lookup_app_Some in Hj as [Hj|[Hlj Hj]].
  - by apply (H1 i j).
  - apply H12; by eapply list_elem_of_lookup_2.
  - apply lookup_lt_Some in Hj. lia.
  - apply (H2 (i - length l1)%nat (j - length l1)%nat); [done|done|lia].
Qed.

Lemma flushed_deliveries (b : gmap Z string) (arrived : list Z) n n' :
  (∀ k t, b !! k = Some t → t = txt k ∧ k ∈ arrived) →
  (∀ k, n ≤ k < n' → is_Some (b !! k)) →
  flushed b n n' = deliveries txt (seqZ n (n' - n)) ∧
  ∀ k, n ≤ k < n' → k ∈ arrived.
Proof.
  intros Hb Hkeys. split.
  - unfold flushed, deliveries. apply list_fmap_ext. intros i k Hk.
    apply lookup_seqZ in Hk as [-> Hi].
    destruct (Hkeys (n + Z.of_nat i)) as [t Ht]; [lia|].
    rewrite Ht. simpl. by destruct (Hb _ _ Ht) as [-> _].
  - intros k Hk. destruct (Hkeys k Hk) as [t Ht]. by destruct (Hb _ _ Ht).
Qed.

(** One arrival: the texts handed over are those of a run of consecutive
    sequence numbers that starts at [next_seq] or later and ends where
    [next_seq] is afterwards. *)
Lemma amo_on_message_segment arrived s sender r :
  inv r → amo_holds txt arrived r →
  ∃ r' a,
    on_message (DATA s (txt s)) sender r = (r', deliveries txt (seqZ a (next_seq r' - a))) ∧
    next_seq r ≤ a ≤ next_seq r' ∧
    (∀ k, a ≤ k < next_seq r' → k ∈ arrived ++ [s]) ∧
    amo_holds txt (arrived ++ [s]) r' ∧ inv r'.
Proof.
  intros Hinv Hholds.
  pose proof (amo_on_message_inv (DATA s (txt s)) sender r Hinv) as Hinv'.
  pose proof Hinv as [Hcap Hsize Hahead].
  assert (Hmono : ∀ r0, amo_holds txt arrived r0 → amo_holds txt (arrived ++ [s]) r0).
  { intros r0 H0 k t Hk. destruct (H0 k t Hk) as [-> Hin].
    split; [done|]. rewrite elem_of_snoc. by left. }
  assert (Hfilter : ∀ (P : Z * string → Prop) `{!∀ x, Decision (P x)} r0 i n c,
            amo_holds txt (arrived ++ [s]) r0 →
            amo_holds txt (arrived ++ [s]) (mk i n (filter P (buffer r0)) c)).
  { intros P ? r0 i n c H0 k t Hk. simpl in Hk.
    apply map_lookup_filter_Some in Hk as [Hk _]. by apply H0. }
  revert Hinv'. unfold on_message. simpl.
  case_bool_decide as Hold.
  { intros _. exists r, (next_seq r). rewrite Z.sub_diag. simpl.
    split; [done|]. split; [lia|]. split; [intros; lia|]. split; [by apply Hmono|done]. }
  unfold accept. case_bool_decide as Heq.
  - subst s.
    destruct (amo_flush_spec (mk (id r) (next_seq r + 1) (buffer r) (max_buffer r)))
      as (n' & E & Hle & Hkeys & Hnone). simpl in *. rewrite E.
    set (r1 := mk _ _ _ _).
    assert (Hcap1 : over_cap r1 = false).
    { apply bool_decide_eq_false. simpl.
      pose proof (filter_size_le (λ kv, ¬ (next_seq r + 1 ≤ kv.1 < n')) (buffer r)).
      lia. }
    rewrite Hcap1. intros Hinv'. exists r1, (next_seq r).
    destruct (flushed_deliveries (buffer r) arrived (next_seq r + 1) n' Hholds Hkeys)
      as [Ef Harr].
    split; [|split; [simpl; lia|split; [|split; [|done]]]].
    + f_equal. rewrite Ef. unfold deliveries, _deliver. simpl.
      rewrite (seqZ_cons (next_seq r)) by lia. rewrite fmap_cons.
      do 3 f_equal; lia.
    + simpl. intros k Hk. rewrite elem_of_snoc.
      destruct (decide (k = next_seq r)) as [->|]; [by right|].
      left. apply Harr. lia.
    + apply (Hfilter _ _ r). by apply Hmono.
  - destruct (buffer r !! s) as [t|] eqn:Hlook.
    + assert (Hcap1 : over_cap r = false).
      { apply bool_decide_eq_false. lia. }
      rewrite Hcap1. intros _. exists r, (next_seq r). rewrite Z.sub_diag. simpl.
      split; [done|]. split; [lia|]. split; [intros; lia|].
      split; [by apply Hmono|done].
    + set (r1 := mk _ _ _ _).
      assert (Hholds1 : amo_holds txt (arrived ++ [s]) r1).
      { intros k t Hk. simpl in Hk. rewrite elem_of_snoc.
        destruct (decide (k = s)) as [->|Hne].
        - rewrite lookup_insert_eq in Hk. injection Hk as <-. split; [done|by right].
        - rewrite lookup_insert_ne in Hk by done.
          destruct (Hholds k t Hk) as [-> ?]. split; [done|by left]. }
      destruct (over_cap r1) eqn:Hover.
      * destruct (amo_skip_ahead_spec r1)
          as (k & n' & Hin & Hlt & Hmin & Hkn & Hkeys & Hnone & E).
        { apply insert_non_empty. }
        { intros j [v Hv]. simpl in *. destruct (decide (j = s)) as [->|]; [lia|].
          rewrite lookup_insert_ne in Hv by done. eauto. }
        rewrite E. intros Hinv'.
        exists (mk (id r1) n' (filter (λ kv, ¬ (k ≤ kv.1 < n')) (buffer r1))
                   (max_buffer r1)), k.
        destruct (flushed_deliveries (buffer r1) (arrived ++ [s]) k n' Hholds1 Hkeys)
          as [Ef Harr].
        rewrite Ef. split; [reflexivity|]. simpl in *.
        split; [lia|]. split; [done|]. split; [|done].
        by apply (Hfilter _ _ r1).
      * intros Hinv'. exists r1, (next_seq r). simpl. rewrite Z.sub_diag. simpl.
        split; [done|]. split; [lia|]. split; [intros; lia|]. done.
Qed.

Lemma amo_run_segments sender seqs : ∀ arrived r,
  inv r → amo_holds txt arrived r →
  ∃ r' ds,
    run r (arrivals sender txt seqs) = (r', deliveries txt ds) ∧
    increasing ds ∧
    (∀ d, d ∈ ds → next_seq r ≤ d < next_seq r' ∧ d ∈ arrived ++ seqs) ∧
    next_seq r ≤ next_seq r'.
Proof.
  induction seqs as [|s seqs IH]; intros arrived r Hinv Hholds.
  - exists r, []. simpl. split; [done|]. split; [by intros i j x y ?|].
    split; [by intros d ?%elem_of_nil|lia].
  - destruct (amo_on_message_segment arrived s sender r Hinv Hholds)
      as (r1 & a & E1 & Ha & Harr & Hholds1 & Hinv1).
    destruct (IH (arrived ++ [s]) r1 Hinv1 Hholds1) as (r' & ds & E & Hinc & Hds & Hle).
    exists r', (seqZ a (next_seq r1 - a) ++ ds).
    cbn [arrivals fmap list_fmap run step]. rewrite E1.
    fold (arrivals sender txt seqs). rewrite E.
    split; [by unfold deliveries; rewrite fmap_app|].
    split; [|split; [|lia]].
    + apply increasing_app; [apply increasing_seqZ|done|].
      intros x y Hx Hy. apply elem_of_seqZ in Hx. apply Hds in Hy. lia.
    + assert (Hcat : arrived ++ s :: seqs = (arrived ++ [s]) ++ seqs).
      { by rewrite <-app_assoc. }
      rewrite Hcat. intros d [Hd|Hd]%elem_of_app.
      * apply elem_of_seqZ in Hd. split; [lia|].
        apply elem_of_app. left. apply Harr. lia.
      * destruct (Hds d Hd) as [? ?]. split; [lia|done].
Qed.

(** The at-most-once receiver hands over texts and does nothing else (no
    ACK, no timer); the sequence numbers of the texts handed over are
    strictly increasing, so that no number is delivered twice or after a
    larger one, and each of them has arrived. *)
Theorem at_most_once_in_order (proc_id sender : string) (seqs : list Z) :
  ∃ ds,
    (run (init proc_id) (arrivals sender txt seqs)).2 = deliveries txt ds ∧
    increasing ds ∧
    ∀ d, d ∈ ds →
      d ∈ seqs ∧ 1 ≤ d < next_seq (run (init proc_id) (arrivals sender txt seqs)).1.
Proof.
  destruct (amo_run_segments sender seqs [] (init proc_id))
    as (r' & ds & E & Hinc & Hds & Hle).
  { apply amo_init_inv. }
  { intros k t Hk. simpl in Hk. by rewrite lookup_empty in Hk. }
  exists ds. rewrite E. simpl. split; [done|]. split; [done|].
  intros d Hd. destruct (Hds d Hd) as [Hr Hin]. simpl in *. done.
Qed.

End AtMostOnceOrder.

(** ** Inputs and transmissions of the windowed sender *)
Section SenderFifoFacts.
Import Sender SenderFifo.

Lemma carries_inputs_timer_ops T dest out :
  Forall is_timer_op out → carries_inputs T dest out.
Proof.
  intros Hall m d Hin. rewrite Forall_forall in Hall. by apply Hall in Hin.
Qed.

Lemma carries_inputs_app T dest o1 o2 :
  carries_inputs T dest o1 → carries_inputs T dest o2 →
  carries_inputs T dest (o1 ++ o2).
Proof. intros H1 H2 m d [?|?]%elem_of_app; auto. Qed.

Lemma carries_inputs_more T T' dest out :
  carries_inputs T dest out → carries_inputs (T ++ T') dest out.
Proof.
  intros H m d Hin. destruct (H m d Hin) as (? & ? & ? & Hl).
  repeat split; try done. by apply lookup_app_l_Some.
Qed.

Lemma timer_ops_restart s : Forall is_timer_op (_restart_timer s).2.
Proof.
  unfold _restart_timer, _disarm_timer, _arm_timer.
  destruct (timer_active s); simpl; repeat constructor.
Qed.

Lemma timer_ops_disarm s : Forall is_timer_op (_disarm_timer s).2.
Proof.
  unfold _disarm_timer. destruct (timer_active s); simpl; repeat constructor.
Qed.

Lemma assign_and_send_out text s :
  ∃ ops, (assign_and_send text s).2 =
           send (DATA (next_seq s) text) (receiver s) :: ops ∧
         Forall is_timer_op ops.
Proof.
  unfold assign_and_send, _send_data. simpl.
  destruct (unacked_empty s).
  - pose proof (timer_ops_restart
      (mk (id s) (receiver s) (next_seq s + 1) (base s)
          (<[next_seq s:=text]> (unacked s)) (pending s) (pending_idx s)
          (window s) (timeout s) (timer s) (timer_active s))) as H.
    destruct (_restart_timer _) as [s2 o2]. simpl in *. eauto.
  - exists []. split; [done|constructor].
Qed.

(** Numbering a text: it must be the input at position [next_seq], and the
    queue must hold the inputs after it. *)
Lemma assign_and_send_fifo T text s :
  1 ≤ next_seq s → (pending_idx s ≤ length (pending s))%nat →
  T !! Z.to_nat (next_seq s - 1) = Some text →
  drop (pending_idx s) (pending s) = drop (Z.to_nat (next_seq s)) T →
  (∀ k t, unacked s !! k = Some t → 1 ≤ k ∧ T !! Z.to_nat (k - 1) = Some t) →
  fifo T (assign_and_send text s).1 ∧
  carries_inputs T (receiver s) (assign_and_send text s).2 ∧
  receiver (assign_and_send text s).1 = receiver s.
Proof.
  intros Hpos Hidx Htext Hq Hu.
  destruct (assign_and_send_fields text s)
    as (En & Eb & Eu & Ep & Ei & Ew & Etn & Eto & Eid & Er & Eta).
  destruct (assign_and_send_out text s) as (ops & Eo & Hops).
  split; [|split; [|done]].
  - split; rewrite ?En, ?Eu, ?Ep, ?Ei; try done; try lia.
    + apply lookup_lt_Some in Htext. lia.
    + rewrite Hq. f_equal. lia.
    + intros k t Hk. destruct (decide (k = next_seq s)) as [->|Hne].
      * rewrite lookup_insert_eq in Hk. injection Hk as <-. done.
      * rewrite lookup_insert_ne in Hk by done. by apply Hu.
  - rewrite Eo. intros m d [Hm|Hm]%elem_of_cons.
    + injection Hm as -> ->. simpl. done.
    + rewrite Forall_forall in Hops. by apply Hops in Hm.
Qed.

Lemma drop_eq_lookup {A} (l l' : list A) i j :
  drop i l = drop j l' → l !! i = l' !! j ∧ drop (S i) l = drop (S j) l'.
Proof.
  intros H. split.
  - rewrite <-(Nat.add_0_r i), <-(Nat.add_0_r j), <-!lookup_drop. by rewrite H.
  - replace (S i) with (i + 1)%nat by lia. replace (S j) with (j + 1)%nat by lia.
    by rewrite <-!drop_drop, H.
Qed.

Lemma drain_pending_fifo T fuel : ∀ s,
  fifo T s →
  fifo T (drain_pending fuel s).1 ∧
  carries_inputs T (receiver s) (drain_pending fuel s).2 ∧
  receiver (drain_pending fuel s).1 = receiver s ∧
  ((length (pending s) - pending_idx s ≤ fuel)%nat → eager (drain_pending fuel s).1).
Proof.
  induction fuel as [|fuel IH]; intros s Hf; pose proof Hf as [Hpos Hidx Hlen Hq Hu].
  - simpl. split; [done|]. split; [by intros m d ?%elem_of_nil|]. split; [done|].
    intros Hfuel _. lia.
  - cbn [drain_pending].
    destruct (pending s !! pending_idx s) as [text|] eqn:Hlook.
    + destruct (_has_window_space s) eqn:Hspace.
      * set (s1 := set_pending (pending s) (S (pending_idx s)) s).
        destruct (drop_eq_lookup _ _ _ _ Hq) as [Hhead Htail].
        rewrite Hlook in Hhead.
        destruct (assign_and_send_fifo T text s1) as (Hf2 & Hc2 & Hr2); simpl; try done.
        { apply lookup_lt_Some in Hlook. lia. }
        { rewrite Htail. f_equal. lia. }
        destruct (assign_and_send_fields text s1) as (_ & _ & _ & Ep & Ei & _).
        destruct (assign_and_send text s1) as [s2 o2]. simpl in *.
        destruct (IH s2 Hf2) as (Hf3 & Hc3 & Hr3 & He3).
        destruct (drain_pending fuel s2) as [s3 o3]. simpl in *.
        split; [done|]. split; [|split; [congruence|]].
        -- apply carries_inputs_app; [done|]. by rewrite <-Hr2.
        -- intros Hfuel. apply He3. rewrite Ep, Ei. lia.
      * simpl. split; [done|]. split; [by intros m d ?%elem_of_nil|]. split; [done|].
        intros _ Hs. congruence.
    + simpl. split; [done|]. split; [by intros m d ?%elem_of_nil|]. split; [done|].
      intros _ _. by apply lookup_ge_None.
Qed.

Lemma _try_send_pending_fifo T s :
  fifo T s →
  fifo T (_try_send_pending s).1 ∧
  carries_inputs T (receiver s) (_try_send_pending s).2 ∧
  receiver (_try_send_pending s).1 = receiver s ∧
  eager (_try_send_pending s).1.
Proof.
  intros Hf. unfold _try_send_pending.
  destruct (drain_pending_fifo T (length (pending s) - pending_idx s) s Hf)
    as (Hf1 & Hc1 & Hr1 & He1).
  specialize (He1 (le_n _)).
  destruct (drain_pending _ s) as [s1 o1]. simpl in *.
  destruct (bool_decide (0 < pending_idx s1)%nat &&
            bool_decide (length (pending s1) ≤ pending_idx s1 * 2)%nat); simpl.
  - destruct Hf1 as [Hpos Hidx Hlen Hq Hu].
    split; [|split; [done|split; [done|]]].
    + split; simpl; try done; lia.
    + intros Hs. simpl. rewrite length_drop. specialize (He1 Hs). lia.
  - done.
Qed.

Lemma slide_base_fields fuel : ∀ s c, ∃ b, (slide_base fuel s c).1 = set_base b s.
Proof.
  induction fuel as [|fuel IH]; intros s c; simpl.
  - exists (base s). by destruct s.
  - destruct (_ && _).
    + destruct (IH (set_base (base s + 1) s) true) as [b ->]. by exists b.
    + exists (base s). by destruct s.
Qed.

Lemma step_fifo T dest s e :
  fifo T s → eager s → receiver s = dest →
  let T' := T ++ inputs [e] in
  fifo T' (step s e).1 ∧ eager (step s e).1 ∧ receiver (step s e).1 = dest ∧
  carries_inputs T' dest (step s e).2.
Proof.
  intros Hf He Hr. pose proof Hf as [Hpos Hidx Hlen Hq Hu]. cbn zeta.
  assert (Hsame : fifo (T ++ []) s ∧ eager s ∧ receiver s = dest ∧
                  carries_inputs (T ++ []) dest []).
  { rewrite app_nil_r. do 3 (split; [done|]). by intros m d ?%elem_of_nil. }
  destruct e as [m|m sender|name]; unfold inputs; simpl.
  - unfold on_local_message.
    destruct (decide (msg_type m = "MESSAGE")) as [Hty|Hty].
    + rewrite (bool_decide_eq_false_2 (msg_type m ≠ "MESSAGE")) by (intros ?; done).
      rewrite bool_decide_eq_true_2 by done. simpl.
      destruct (_has_window_space s) eqn:Hspace.
      * specialize (He Hspace).
        assert (Hempty : drop (pending_idx s) (pending s) = []).
        { apply drop_ge. lia. }
        assert (HlenT : length T = Z.to_nat (next_seq s - 1)).
        { rewrite Hempty in Hq. symmetry in Hq.
          apply (f_equal length) in Hq. rewrite length_drop in Hq. simpl in Hq. lia. }
        destruct (assign_and_send_fifo (T ++ [msg_text m]) (msg_text m) s)
          as (Hf2 & Hc2 & Hr2); try done.
        { rewrite <-HlenT. apply list_lookup_middle. done. }
        { rewrite Hempty. symmetry. apply drop_ge. rewrite length_app. simpl. lia. }
        { intros k t Hk. destruct (Hu k t Hk) as [? Hl]. split; [done|].
          by apply lookup_app_l_Some. }
        destruct (assign_and_send_fields (msg_text m) s) as (_ & _ & _ & Ep & Ei & _).
        split; [done|]. split; [|split; [congruence|by rewrite <-Hr]].
        intros _. rewrite Ep, Ei. done.
      * split; [|split; [|split; [done|by intros ? ? ?%elem_of_nil]]].
        -- split; simpl; try done.
           ++ rewrite length_app. lia.
           ++ rewrite length_app. lia.
           ++ rewrite !drop_app_le by lia. by rewrite Hq.
           ++ intros k t Hk. destruct (Hu k t Hk) as [? Hl]. split; [done|].
              by apply lookup_app_l_Some.
        -- intros Hs. unfold _has_window_space in *. simpl in Hs. congruence.
    + rewrite (bool_decide_eq_true_2 (msg_type m ≠ "MESSAGE")) by done.
      rewrite bool_decide_eq_false_2 by done. done.
  - unfold on_message. case_bool_decide as Hack; [done|]. rewrite app_nil_r.
    set (s1 := set_unacked (delete (msg_seq m) (unacked s)) s).
    destruct (slide_base_fields (Z.to_nat (next_seq s1 - base s1)) s1 false) as [b Eb].
    destruct (slide_base _ s1 false) as [s2 c]. simpl in Eb. subst s2.
    assert (H3 : ∃ ta, ∀ s3 o3,
              (if unacked_empty (set_base b s1) then _disarm_timer (set_base b s1)
               else if c then _restart_timer (set_base b s1)
               else (set_base b s1, [])) = (s3, o3) →
              s3 = set_timer_active ta (set_base b s1) ∧ Forall is_timer_op o3).
    { destruct (unacked_empty (set_base b s1)).
      - unfold _disarm_timer. destruct (timer_active (set_base b s1)) eqn:Hta.
        + exists false. intros s3 o3 [= <- <-]. split; [done|repeat constructor].
        + exists false. intros s3 o3 [= <- <-]. split; [|constructor].
          destruct s. simpl in *. by subst.
      - destruct c.
        + exists true. unfold _restart_timer, _disarm_timer, _arm_timer.
          destruct (timer_active (set_base b s1)); intros s3 o3 [= <- <-];
            (split; [done|repeat constructor]).
        + exists (timer_active s). intros s3 o3 [= <- <-]. split; [|constructor].
          by destruct s. }
    destruct H3 as [ta H3].
    destruct (if unacked_empty (set_base b s1) then _ else _) as [s3 o3].
    destruct (H3 s3 o3 eq_refl) as [-> Hops].
    assert (Hf3 : fifo T (set_timer_active ta (set_base b s1))).
    { split; simpl; try done. intros k t Hk.
      apply lookup_delete_Some in Hk as [_ Hk]. by apply Hu. }
    destruct (_try_send_pending_fifo T _ Hf3) as (Hf4 & Hc4 & Hr4 & He4).
    destruct (_try_send_pending _) as [s4 o4]. simpl in *.
    split; [done|]. split; [done|]. split; [congruence|].
    apply carries_inputs_app; [by apply carries_inputs_timer_ops|by rewrite <-Hr].
  - unfold on_timer, _arm_timer, _send_data. case_bool_decide; [done|].
    rewrite app_nil_r.
    change (unacked_empty (set_timer_active false s)) with (unacked_empty s).
    destruct (unacked_empty s); simpl.
    + split; [by split|]. split; [done|]. split; [done|].
      by intros ? ? ?%elem_of_nil.
    + split; [by split|]. split; [done|]. split; [done|].
      destruct (unacked s !! base s) as [text|] eqn:Hb; simpl.
      * intros m' d. rewrite !elem_of_cons, elem_of_nil.
        intros [Hm|[Hm|[]]]; [|done]. injection Hm as -> ->. simpl.
        destruct (Hu _ _ Hb). done.
      * intros m' d. rewrite !elem_of_cons, elem_of_nil. intros [Hm|[]]. done.
Qed.

Lemma inputs_cons e evs : inputs (e :: evs) = inputs [e] ++ inputs evs.
Proof. unfold inputs. simpl. by rewrite app_nil_r. Qed.

Lemma run_fifo dest evs : ∀ T s,
  fifo T s → eager s → receiver s = dest →
  let T' := T ++ inputs evs in
  fifo T' (run s evs).1 ∧ eager (run s evs).1 ∧ receiver (run s evs).1 = dest ∧
  carries_inputs T' dest (run s evs).2.
Proof.
  induction evs as [|e evs IH]; intros T s Hf He Hr; cbn zeta.
  - simpl. rewrite app_nil_r. do 3 (split; [done|]). by intros ? ? ?%elem_of_nil.
  - destruct (step_fifo T dest s e Hf He Hr) as (Hf1 & He1 & Hr1 & Hc1).
    rewrite inputs_cons, app_assoc.
    cbn [run]. destruct (step s e) as [s1 o1]. cbn [fst snd] in Hf1, He1, Hr1, Hc1.
    destruct (IH _ s1 Hf1 He1 Hr1) as (Hf2 & He2 & Hr2 & Hc2).
    destruct (run s1 evs) as [s2 o2]. cbn [fst snd] in *.
    split; [done|]. split; [done|]. split; [done|].
    apply carries_inputs_app; [by apply carries_inputs_more|done].
Qed.

(** A windowed sender numbers the application's inputs in their order:
    every message it sends, for the first time or again, goes to its
    receiver and is [DATA{k, text}] with [text] the k-th input; the inputs
    not numbered yet wait in [pending], from the cursor on, in the order of
    input; and nothing waits while the window has room. *)
Theorem sender_inputs_in_order (proc_id receiver_id : string) (w : Z)
    (evs : list event) :
  let s := (run (init proc_id receiver_id w) evs).1 in
  let out := (run (init proc_id receiver_id w) evs).2 in
  let T := inputs evs in
  carries_inputs T receiver_id out ∧
  drop (pending_idx s) (pending s) = drop (Z.to_nat (next_seq s - 1)) T ∧
  (Z.to_nat (next_seq s - 1) ≤ length T)%nat ∧
  (∀ k text, unacked s !! k = Some text → T !! Z.to_nat (k - 1) = Some text) ∧
  (_has_window_space s = true → drop (pending_idx s) (pending s) = []).
Proof.
  destruct (run_fifo receiver_id evs [] (init proc_id receiver_id w))
    as ([Hpos Hidx Hlen Hq Hu] & He & Hr & Hc).
  { split; simpl; try done; lia. }
  { intros _. simpl. lia. }
  { done. }
  cbn zeta. rewrite app_nil_l in *.
  split; [done|]. split; [done|]. split; [done|]. split.
  - intros k t Hk. by destruct (Hu k t Hk).
  - intros Hs. apply drop_ge. by apply He.
Qed.

End SenderFifoFacts.

(** ** Acknowledgments of the exactly-once receiver *)
Section DedupAnswers.
Import ExactlyOnceReceiver DedupInv.




End DedupAnswers.

(** ** The retransmission timer *)
Section SenderTimer.
Import Sender.

Lemma timer_after_app name armed o1 o2 :
  timer_after name armed (o1 ++ o2) =
  timer_after name armed o1 ≫= λ b, timer_after name b o2.
Proof.
  revert armed. induction o1 as [|e o1 IH]; intros armed; [done|].
  destruct e; simpl; try apply IH; destruct (_ && _); try done; apply IH.
Qed.

Lemma assign_and_send_timer text s :
  timer_after (timer s) (timer_active s) (assign_and_send text s).2 =
    Some (timer_active (assign_and_send text s).1) ∧
  timer (assign_and_send text s).1 = timer s.
Proof.
  unfold assign_and_send, _restart_timer, _disarm_timer, _arm_timer, _send_data.
  destruct (unacked_empty s), (timer_active s) eqn:Hta; simpl;
    rewrite ?bool_decide_eq_true_2 by done; simpl;
    rewrite ?bool_decide_eq_true_2 by done; simpl; by rewrite ?Hta.
Qed.

Lemma drain_pending_timer fuel : ∀ s,
  timer_after (timer s) (timer_active s) (drain_pending fuel s).2 =
    Some (timer_active (drain_pending fuel s).1) ∧
  timer (drain_pending fuel s).1 = timer s.
Proof.
  induction fuel as [|fuel IH]; intros s; [done|]. cbn [drain_pending].
  destruct (pending s !! pending_idx s) as [text|]; [|done].
  destruct (_has_window_space s); [|done].
  set (s1 := set_pending (pending s) (S (pending_idx s)) s).
  destruct (assign_and_send_timer text s1) as [H2 Hn2].
  destruct (assign_and_send text s1) as [s2 o2].
  destruct (IH s2) as [H3 Hn3].
  destruct (drain_pending fuel s2) as [s3 o3]. simpl in *.
  rewrite timer_after_app, H2. simpl. rewrite <-Hn2, H3. split; [done|congruence].
Qed.

Lemma _try_send_pending_timer s :
  timer_after (timer s) (timer_active s) (_try_send_pending s).2 =
    Some (timer_active (_try_send_pending s).1) ∧
  timer (_try_send_pending s).1 = timer s.
Proof.
  unfold _try_send_pending.
  destruct (drain_pending_timer (length (pending s) - pending_idx s) s) as [H1 Hn1].
  destruct (drain_pending _ s) as [s1 o1]. simpl in *.
  by destruct (_ && _).
Qed.

(** The sender's flag follows the timer of the harness: when the flag
    tells the state of the timer as a reaction starts (an expiry of the
    sender's timer having left it idle), the reaction arms the timer only
    when it is idle and cancels it only when it is armed, under its own
    name, and the flag tells the state of the timer when the reaction ends.
    No second alarm is ever stacked on a pending one. *)
Theorem timer_never_stacked (s : t) (e : event) :
  timer_after (timer s) (armed_before s e) (step s e).2 =
    Some (timer_active (step s e).1) ∧
  timer (step s e).1 = timer s.
Proof.
  destruct e as [m|m sender|name]; simpl.
  - unfold on_local_message. case_bool_decide; [done|].
    destruct (_has_window_space s); [apply assign_and_send_timer|done].
  - unfold on_message. case_bool_decide; [done|].
    set (s1 := set_unacked (delete (msg_seq m) (unacked s)) s).
    destruct (slide_base_fields (Z.to_nat (next_seq s1 - base s1)) s1 false) as [b Eb].
    destruct (slide_base _ s1 false) as [s2 c]. simpl in Eb. subst s2.
    assert (H3 : ∀ s3 o3,
              (if unacked_empty (set_base b s1) then _disarm_timer (set_base b s1)
               else if c then _restart_timer (set_base b s1)
               else (set_base b s1, [])) = (s3, o3) →
              timer_after (timer s) (timer_active s) o3 = Some (timer_active s3) ∧
              timer s3 = timer s).
    { unfold _restart_timer, _disarm_timer, _arm_timer.
      destruct (unacked_empty (set_base b s1)), c, (timer_active s) eqn:Hta; simpl;
        rewrite ?Hta; intros s3 o3 [= <- <-]; simpl;
        rewrite ?bool_decide_eq_true_2 by done; simpl;
        rewrite ?bool_decide_eq_true_2 by done; simpl; by rewrite ?Hta. }
    destruct (if unacked_empty (set_base b s1) then _ else _) as [s3 o3].
    destruct (H3 s3 o3 eq_refl) as [Ht3 Hn3].
    destruct (_try_send_pending_timer s3) as [Ht4 Hn4].
    destruct (_try_send_pending s3) as [s4 o4]. simpl in *.
    rewrite timer_after_app, Ht3. simpl. rewrite <-Hn3, Ht4. split; [done|congruence].
  - unfold on_timer, _arm_timer, _send_data.
    destruct (decide (name = timer s)) as [->|Hne].
    + rewrite (bool_decide_eq_false_2 (timer s ≠ timer s)) by (intros Hn; by apply Hn).
      rewrite (bool_decide_eq_true_2 (timer s = timer s)) by done.
      change (unacked_empty (set_timer_active false s)) with (unacked_empty s).
      destruct (unacked_empty s); [done|]. simpl.
      destruct (unacked s !! base s); simpl; by rewrite bool_decide_eq_true_2.
    + rewrite (bool_decide_eq_true_2 (name ≠ timer s)) by done.
      by rewrite (bool_decide_eq_false_2 (name = timer s)).
Qed.

End SenderTimer.

(** ** Acknowledgments that acknowledge nothing *)
Section StaleAck.
Import Sender SenderInv SenderFifo.

Lemma drain_pending_idle fuel s :
  eager s → drain_pending fuel s = (s, []).
Proof.
  intros He. destruct fuel as [|fuel]; [done|]. cbn [drain_pending].
  destruct (pending s !! pending_idx s) as [text|] eqn:Hlook; [|done].
  destruct (_has_window_space s) eqn:Hspace; [|done].
  apply lookup_lt_Some in Hlook. specialize (He Hspace). lia.
Qed.

Lemma slide_base_idle fuel s c :
  base s = next_seq s ∨ is_Some (unacked s !! base s) →
  slide_base fuel s c = (s, c).
Proof.
  intros Hb. destruct fuel as [|fuel]; [done|]. simpl.
  destruct Hb as [Hb|[v Hv]].
  - rewrite (bool_decide_eq_false_2 (base s < next_seq s)) by lia. done.
  - rewrite (bool_decide_eq_false_2 (unacked s !! base s = None)) by congruence.
    by rewrite andb_false_r.
Qed.

(** An ACK for a sequence number that is not outstanding (a copy of an
    earlier ACK, or an ACK for a number never sent) changes nothing in a
    windowed sender and makes it send nothing, in any state it can reach. *)
Theorem stale_ack_ignored (proc_id receiver_id : string) (w seq : Z)
    (sender : string) (evs : list event) :
  0 ≤ w →
  let s := (run (init proc_id receiver_id w) evs).1 in
  unacked s !! seq = None →
  on_message (ACK seq) sender s = (s, []).
Proof.
  intros Hw s Hseq.
  pose proof (run_inv w evs _ (init_inv proc_id receiver_id w Hw))
    as [Hwin Hn Ht Hb Hsp Hk Hbase Htm].
  destruct (run_fifo receiver_id evs [] (init proc_id receiver_id w))
    as (_ & He & _).
  { split; simpl; try done; lia. }
  { intros _. simpl. lia. }
  { done. }
  assert (Hc : cursor_low (run (init proc_id receiver_id w) evs).1).
  { apply run_cursor. by left. }
  fold s in Hwin, Hn, Ht, Hb, Hsp, Hk, Hbase, Htm, He, Hc.
  unfold on_message. simpl.
  assert (Hs1 : set_unacked (delete seq (unacked s)) s = s).
  { rewrite delete_id by done. by destruct s. }
  rewrite Hs1, slide_base_idle by done.
  assert (H3 : (if unacked_empty s then _disarm_timer s else (s, [])) = (s, [])).
  { destruct (unacked_empty s) eqn:Hemp; [|done].
    unfold _disarm_timer. by rewrite Htm. }
  rewrite H3. unfold _try_send_pending. rewrite drain_pending_idle by done.
  destruct Hc as [Hc|Hc].
  - rewrite (bool_decide_eq_false_2 (0 < pending_idx s)%nat) by lia. done.
  - rewrite (bool_decide_eq_false_2 (length (pending s) ≤ pending_idx s * 2)%nat) by lia.
    by rewrite andb_false_r.
Qed.

Lemma stale_ack_ignored_witness :
  let s := (run (init "s" "r" 10)
              [LocalMessage (MESSAGE "a"); WireMessage (ACK 1) "r"]).1 in
  on_message (ACK 1) "r" s = (s, []).
Proof.
  apply (stale_ack_ignored "s" "r" 10 1 "r"
           [LocalMessage (MESSAGE "a"); WireMessage (ACK 1) "r"]).
  - lia.
  - vm_compute. reflexivity.
Defined.

End StaleAck.

(** ** The buffer of the exactly-once-ordered receiver *)
Section OrderedBuffer.
Import ExactlyOnceOrderedReceiver OrderedInv.

(** The ordered receiver keeps every arrival that is ahead: after any
    arrivals its buffer holds, under each sequence number above [next_seq]
    that has arrived, the text of that number, and nothing else. *)
Theorem ordered_buffer_keeps_ahead (proc_id sender : string) (txt : Z → string)
    (seqs : list Z) (k : Z) :
  let r := (run (init proc_id) (arrivals sender txt seqs)).1 in
  buffer r !! k =
    if bool_decide (k ∈ seqs ∧ next_seq r < k) then Some (txt k) else None.
Proof.
  assert (H0 : inv txt [] (init proc_id)).
  { split; simpl; [lia| |apply not_elem_of_nil|lia].
    intros j. unfold init. cbn [buffer next_seq]. rewrite lookup_empty.
    rewrite bool_decide_eq_false_2; [done|].
    intros [Hk _]. by apply elem_of_nil in Hk. }
  destruct (run_ordered txt sender seqs [] (init proc_id) H0)
    as (r' & out & E & _ & _ & _ & [Hpos Hholds Hnext Hbelow]).
  rewrite E. simpl in *. rewrite Hholds.
  destruct (decide (k = next_seq r')) as [->|Hne].
  - rewrite !bool_decide_eq_false_2; [done|lia|tauto].
  - destruct (decide (k ∈ seqs ∧ next_seq r' ≤ k)) as [Hk|Hk].
    + rewrite !bool_decide_eq_true_2; [done| |done]. split; [tauto|lia].
    + rewrite !bool_decide_eq_false_2; [done| |done].
      intros [? ?]. apply Hk. split; [done|lia].
Qed.

End OrderedBuffer.

(** ** The capacity of the bitmap *)
Section DedupCapacity.
Import ExactlyOnceReceiver DedupInv.








End DedupCapacity.
